(** * mertics: a registry of metric nodes dumped as an indented report

    Shallow embedding of [src/mertics.cc] and the properties of its
    traversal.  Objects live in a store indexed by the identity of their
    control block; a [std::weak_ptr<Node>] is such an identity and
    [lock()] is a lookup that fails once the object has been destroyed. *)

From Stdlib Require Import NArith Ascii String DecimalString.
From stdpp Require Import gmap strings list fin_maps.

(** ** Text written to a [std::ostream] *)

Abbreviation ostream := string.

(** The newline character, ["\n"]. *)
Definition nl : string := String "010"%char "".

(** [o << std::endl]: a newline (the flush leaves no trace in the text). *)
Definition endl (o : ostream) : ostream := o +:+ nl.

(** ** [Field<CONTENT>] (lines 111-127)

    The two instantiations the driver uses: [std::string] and [size_t]. *)

Inductive CONTENT :=
| CString (s : string)
| CSize (n : N).

(** [output << content] for each content type: a string is written as it
    is, a [size_t] in decimal. *)
Definition stream_out (o : ostream) (c : CONTENT) : ostream :=
  match c with
  | CString s => o +:+ s
  | CSize n => o +:+ NilEmpty.string_of_uint (N.to_uint n)
  end.

Definition same_type (c1 c2 : CONTENT) : bool :=
  match c1, c2 with
  | CString _, CString _ => true
  | CSize _, CSize _ => true
  | _, _ => false
  end.

(** ** [Visitor] (lines 14-35) *)

Module Visitor.

Record t := mk { depth : N; output : ostream }.

(** [size_t] is 64 bits wide; [++] and [--] wrap around. *)
Definition SIZE_MOD : N := 2 ^ 64.

Definition incr (v : t) : t := mk ((depth v + 1) mod SIZE_MOD) (output v).

Definition decr (v : t) : t :=
  mk ((depth v + SIZE_MOD - 1) mod SIZE_MOD) (output v).

Definition header (v : t) : t :=
  mk (depth v) (endl (output v +:+ " -!- R E P O R T -!-")).

Definition tail (v : t) : t :=
  mk (depth v) (endl (endl (endl (output v +:+ " -@- _ _ _ _ _ _ -@-")))).

(** The loop of [prefix]: [for (counter = 1; counter < depth; ++counter)].
    [fuel] bounds the number of iterations; [prefix] passes [depth]. *)
Fixpoint prefix_loop (fuel : nat) (counter depth : N) (o : ostream) : ostream :=
  match fuel with
  | O => o
  | S fuel' =>
      if (counter <? depth)%N
      then prefix_loop fuel' (counter + 1)%N depth (o +:+ "  ")
      else o
  end.

Definition prefix (v : t) : t :=
  mk (depth v)
     (prefix_loop (N.to_nat (depth v)) 1%N (depth v) (output v) +:+ " - ").

Definition suffix (v : t) : t := mk (depth v) (output v +:+ nl).

(** Constructor: [depth = 0], bound to the sink, then [header()]. *)
Definition ctor (o : ostream) : t := header (mk 0%N o).

(** Destructor: [tail()]; what is left is the sink. *)
Definition dtor (v : t) : ostream := output (tail v).

End Visitor.

Module Field.

Record t := mk { content : CONTENT }.

(** [visit(const Visitor &)]: [visitor.output << content]. *)
Definition visit (f : t) (v : Visitor.t) : Visitor.t :=
  Visitor.mk (Visitor.depth v) (stream_out (Visitor.output v) (content f)).

(** Assignment replaces the content wholesale. *)
Definition assign (f newValue : t) : t := mk (content newValue).

(** [operator <] delegates to the content's own order. *)
Definition lt (f other : t) : bool :=
  match content f, content other with
  | CString a, CString b => String.ltb a b
  | CSize a, CSize b => (a <? b)%N
  | _, _ => false
  end.

End Field.

(** ** Objects and the store *)

Abbreviation addr := positive.

(** [std::list<std::weak_ptr<Node>>] (line 11). *)
Abbreviation NodeList := (list addr).

(** The dynamic type of an object, with the members its class adds.
    [KNode] is a plain [Node], [KRoot] a [Root]: neither overrides the
    virtual [visit]. *)
Inductive Kind :=
| KNode
| KRoot
| KStorage (field_ : Field.t)
| KAtomicStorage (field_ : Field.t).

Record Object := { kind : Kind; children_ : NodeList }.

(** A control block is [Some o] while its object [o] is alive and [None]
    once the last strong owner is gone; an identity never handed out is
    absent from the map. *)
Abbreviation Store := (gmap addr (option Object)).

(** [std::weak_ptr::lock()]. *)
Definition lock (h : Store) (child : addr) : option Object := h !! child ≫= id.

(** The last [std::shared_ptr] to the object goes away. *)
Definition release (a : addr) (h : Store) : Store := <[a := None]> h.

(** [std::lock_guard<std::mutex> lock(mutex_)] around a block: in a
    sequential run the mutex is free on entry and released at the closing
    brace, so the guarded block runs as it is. *)
Definition lock_guard {A : Type} (block : A) : A := block.

(** ** [Node] (lines 37-57) *)

Module Node.

Section Visit.

Variable h : Store.

(** [pointer->visit(visitor)]: the dispatching call on a live child. *)
Variable visit1 : addr → Visitor.t → option Visitor.t.

(** The range-for over [children] (lines 41-43). *)
Fixpoint for_children (children : NodeList) (v : Visitor.t) : option Visitor.t :=
  match children with
  | [] => Some v
  | child :: rest =>
      match lock h child with
      | Some _ => v' ← visit1 child v; for_children rest v'
      | None => for_children rest v
      end
  end.

(** [Node::visit(Visitor &, const NodeList &) const] (lines 39-45). *)
Definition visit (v : Visitor.t) (children : NodeList) : option Visitor.t :=
  v' ← for_children children (Visitor.incr v); Some (Visitor.decr v').

End Visit.

(** [append] (lines 46-48): [children_.emplace_back(child)]. *)
Definition append (a : addr) (child : addr) (h : Store) : option Store :=
  match lock h a with
  | Some o =>
      Some (<[a := Some {| kind := kind o; children_ := children_ o ++ [child] |}]> h)
  | None => None
  end.

(** How a call ends: it returns, or the process is aborted. *)
Inductive outcome (A : Type) :=
| Returned (x : A)
| Aborted.
Arguments Returned {A} x.
Arguments Aborted {A}.

(** [assert(e)] from [<cassert>]: with [NDEBUG] defined it expands to
    [((void)0)]; otherwise it aborts when [e] is false. *)
Definition assert {A : Type} (NDEBUG : bool) (e : bool) (k : A) : outcome A :=
  if NDEBUG then Returned k
  else if e then Returned k else Aborted.

(** [trim] (lines 49-51): [assert(!"unimplemented")].  A string literal is
    a non-null pointer, so the asserted expression is [false]. *)
Definition trim (NDEBUG : bool) (a : addr) (h : Store) : outcome Store :=
  assert NDEBUG (negb true) h.

End Node.

(** ** [Storage<FIELD>] (lines 61-75) *)

Module Storage.

Definition visit (h : Store) (visit1 : addr → Visitor.t → option Visitor.t)
    (field_ : Field.t) (v : Visitor.t) (children : NodeList) : option Visitor.t :=
  let v := Visitor.prefix v in
  let v := Field.visit field_ v in
  let v := Visitor.suffix v in
  Node.visit h visit1 v children.

Definition commit (a : addr) (newValue : Field.t) (h : Store) : option Store :=
  match lock h a with
  | Some {| kind := KStorage f; children_ := ch |} =>
      if same_type (Field.content f) (Field.content newValue)
      then Some (<[a := Some {| kind := KStorage (Field.assign f newValue);
                               children_ := ch |}]> h)
      else None
  | _ => None
  end.

End Storage.

(** ** [AtomicStorage<FIELD>] (lines 77-97) *)

Module AtomicStorage.

Definition visit (h : Store) (visit1 : addr → Visitor.t → option Visitor.t)
    (field_ : Field.t) (v : Visitor.t) (children : NodeList) : option Visitor.t :=
  let v := Visitor.prefix v in
  let v := lock_guard (Field.visit field_ v) in
  let v := Visitor.suffix v in
  Node.visit h visit1 v children.

(** [commit] (lines 90-93).  The handle is a [shared_ptr], so the object is
    alive, and [FIELD] fixes the content type: the other cases cannot be
    written in the source and give [None]. *)
Definition commit (a : addr) (newValue : Field.t) (h : Store) : option Store :=
  match lock h a with
  | Some {| kind := KAtomicStorage f; children_ := ch |} =>
      if same_type (Field.content f) (Field.content newValue)
      then lock_guard
             (Some (<[a := Some {| kind := KAtomicStorage (Field.assign f newValue);
                                  children_ := ch |}]> h))
      else None
  | _ => None
  end.

End AtomicStorage.

(** ** Dynamic dispatch and the recursion *)

(** The virtual [visit(visitor, children)] of an object, by dynamic type. *)
Definition virtual_visit (h : Store) (visit1 : addr → Visitor.t → option Visitor.t)
    (o : Object) (v : Visitor.t) (children : NodeList) : option Visitor.t :=
  match kind o with
  | KNode | KRoot => Node.visit h visit1 v children
  | KStorage f => Storage.visit h visit1 f v children
  | KAtomicStorage f => AtomicStorage.visit h visit1 f v children
  end.

(** [Node::visit(Visitor &)] (lines 52-54) on the object at [a]:
    [visit(visitor, children_)].  Weak edges may form a cycle, on which the
    source does not return; [fuel] bounds the nesting of calls and [None]
    stands for a traversal that is not over within it. *)
Fixpoint visit (fuel : nat) (h : Store) (a : addr) (v : Visitor.t) : option Visitor.t :=
  match fuel with
  | O => None
  | S fuel' =>
      match lock h a with
      | Some o => virtual_visit h (visit fuel' h) o v (children_ o)
      | None => None
      end
  end.

(** ** [Root] (lines 99-109) *)

Module Root.

(** What [create<STORAGE>()] can build: the storage class and its content
    type. *)
Inductive STORAGE :=
| Storage_string
| Storage_size
| AtomicStorage_string
| AtomicStorage_size.

(** The value-initialised field of a new node. *)
Definition new_kind (T : STORAGE) : Kind :=
  match T with
  | Storage_string => KStorage (Field.mk (CString ""))
  | Storage_size => KStorage (Field.mk (CSize 0))
  | AtomicStorage_string => KAtomicStorage (Field.mk (CString ""))
  | AtomicStorage_size => KAtomicStorage (Field.mk (CSize 0))
  end.

(** [create] (lines 101-103): a new object behind a new control block,
    attached to nothing.  The root the object is created through only lends
    its mutex to an [AtomicStorage]. *)
Definition create (T : STORAGE) (h : Store) : addr * Store :=
  let a := fresh (dom h) in
  (a, <[a := Some {| kind := new_kind T; children_ := [] |}]> h).

(** [visit()] (lines 104-107), writing to the sink [cout]. *)
Definition visit (fuel : nat) (h : Store) (r : addr) (cout : ostream) : option ostream :=
  match lock h r with
  | Some {| kind := KRoot |} =>
      let visitor := Visitor.ctor cout in
      v ← visit fuel h r visitor;
      Some (Visitor.dtor v)
  | _ => None
  end.

End Root.

(** ** The driver (lines 134-151), replayed *)

Definition root0 : addr := 1%positive.

Definition store0 : Store := {[ root0 := Some {| kind := KRoot; children_ := [] |} ]}.

Definition main : option (list ostream) :=
  let '(metric, h) := Root.create Root.AtomicStorage_string store0 in
  h ← Node.append root0 metric h;
  h ← AtomicStorage.commit metric (Field.mk (CString "hello")) h;
  let '(metric2, h) := Root.create Root.AtomicStorage_size h in
  h ← Node.append metric metric2 h;
  h ← AtomicStorage.commit metric2 (Field.mk (CSize 2)) h;
  r1 ← Root.visit 8 h root0 "";
  let h := release metric2 h in
  h ← AtomicStorage.commit metric (Field.mk (CString "bye")) h;
  r2 ← Root.visit 8 h root0 "";
  let h := release metric h in
  r3 ← Root.visit 8 h root0 "";
  Some [r1; r2; r3].

(** ** The report as the spec describes it

    The nodes a traversal enters, in pre-order, each with the depth it is
    rendered at; a parent's children are listed in the order of its child
    list and a reference that does not resolve contributes nothing. *)

Fixpoint listing (fuel : nat) (h : Store) (d : N) (a : addr) : option (list (addr * N)) :=
  match fuel with
  | O => None
  | S fuel' =>
      o ← lock h a;
      trs ← mapM (listing fuel' h ((d + 1) mod Visitor.SIZE_MOD)%N)
              (filter (λ c, is_Some (lock h c)) (children_ o));
      Some ((a, d) :: concat trs)
  end.

(** [n] indent units of two spaces. *)
Fixpoint indent (n : nat) : string :=
  match n with
  | O => ""
  | S n' => "  " +:+ indent n'
  end.

(** What [operator<<] writes for a content. *)
Definition rendered (c : CONTENT) : string := stream_out "" c.

(** The line of a storage node at depth [d]: [d - 1] indent units, the
    leaf marker, the rendered value, a newline. *)
Definition line (f : Field.t) (d : N) : string :=
  indent (N.to_nat (d - 1)) +:+ " - " +:+ rendered (Field.content f) +:+ nl.

(** What an object of a given dynamic type writes for itself. *)
Definition own_text (k : Kind) (d : N) : string :=
  match k with
  | KNode | KRoot => ""
  | KStorage f | KAtomicStorage f => line f d
  end.

Definition text (h : Store) (e : addr * N) : string :=
  match lock h e.1 with
  | Some o => own_text (kind o) e.2
  | None => ""
  end.

Fixpoint cat (ls : list string) : string :=
  match ls with
  | [] => ""
  | l :: ls' => l +:+ cat ls'
  end.

Definition texts (h : Store) (tr : list (addr * N)) : string := cat (text h <$> tr).

Definition header_text : string := " -!- R E P O R T -!-" +:+ nl.

Definition tail_text : string := " -@- _ _ _ _ _ _ -@-" +:+ nl +:+ nl +:+ nl.

(** The step in which an object renders itself, before its children. *)
Definition own_render (o : Object) (v : Visitor.t) : Visitor.t :=
  match kind o with
  | KNode | KRoot => v
  | KStorage f | KAtomicStorage f =>
      Visitor.suffix (Field.visit f (Visitor.prefix v))
  end.

(** [enters h a v path b vb]: the call [visit(v)] on the object at [a]
    reaches, along the child references [path], the call [visit(vb)] on the
    object at [b].  Each step goes through a reference that resolves, after
    the parent has rendered itself and the earlier siblings have returned. *)
Inductive enters (h : Store) : addr → Visitor.t → list addr → addr → Visitor.t → Prop :=
| enters_here a v : enters h a v [] a v
| enters_child a v o fuel before child after v1 path b vb :
    lock h a = Some o →
    children_ o = before ++ child :: after →
    is_Some (lock h child) →
    Node.for_children h (visit fuel h) before (Visitor.incr (own_render o v)) = Some v1 →
    enters h child v1 path b vb →
    enters h a v (child :: path) b vb.

(** [reach h a b]: [b] is alive and reachable from [a] by following
    references through live objects only. *)
Inductive reach (h : Store) : addr → addr → Prop :=
| reach_here a : is_Some (lock h a) → reach h a a
| reach_child a o child b :
    lock h a = Some o → child ∈ children_ o → reach h child b → reach h a b.

(** A rank that decreases along every reference that resolves: the live
    part of the store has no cycle. *)
Definition ranked (rk : addr → nat) (h : Store) : bool :=
  forallb (λ '(a, oo),
    match oo with
    | Some o =>
        forallb (λ c, match lock h c with
                      | Some _ => rk c <? rk a
                      | None => true
                      end) (children_ o)
    | None => true
    end) (map_to_list h).

(** The same as a property of the references. *)
Definition Ranked (rk : addr → nat) (h : Store) : Prop :=
  ∀ a o c, lock h a = Some o → c ∈ children_ o → is_Some (lock h c) → rk c < rk a.

(** Two stores with the same live objects and the same child lists. *)
Definition same_shape (h h' : Store) : Prop :=
  ∀ x, children_ <$> lock h x = children_ <$> lock h' x.

(** The store with every reference to [c] taken out of every child list. *)
Definition purge (c : addr) (h : Store) : Store :=
  fmap (M := gmap addr)
    (fmap (M := option)
       (λ o, {| kind := kind o; children_ := filter (λ x, x ≠ c) (children_ o) |})) h.

(** Every reference in a child list is to an identity that has been handed
    out: a [std::weak_ptr] is only ever made from a [std::shared_ptr]. *)
Definition closed (h : Store) : bool :=
  forallb (λ '(a, oo),
    match oo with
    | Some o => forallb (λ c, bool_decide (is_Some (h !! c))) (children_ o)
    | None => true
    end) (map_to_list h).

(** The same as a property of the references. *)
Definition Closed (h : Store) : Prop :=
  ∀ a o c, lock h a = Some o → c ∈ children_ o → is_Some (h !! c).

(** [on_cycle h a]: a chain of references that resolve leads from [a] back
    to [a]. *)
Definition on_cycle (h : Store) (a : addr) : Prop :=
  ∃ o child, lock h a = Some o ∧ child ∈ children_ o ∧ reach h child a.

(** ** Stores of the scenarios

    [root0] is the root; [metric] and [metric2] are the two storage nodes
    of the driver. *)

Definition metric : addr := 2%positive.

Definition metric2 : addr := 3%positive.

(** A root with one [AtomicStorage<string>] child committed to ["hello"]. *)
Definition store_A : Store :=
  <[root0 := Some {| kind := KRoot; children_ := [metric] |}]>
    (<[metric := Some {| kind := KAtomicStorage (Field.mk (CString "hello"));
                        children_ := [] |}]> ∅).

(** The same, with an [AtomicStorage<size_t>] committed to [2] below it. *)
Definition store_B : Store :=
  <[root0 := Some {| kind := KRoot; children_ := [metric] |}]>
    (<[metric := Some {| kind := KAtomicStorage (Field.mk (CString "hello"));
                        children_ := [metric2] |}]>
       (<[metric2 := Some {| kind := KAtomicStorage (Field.mk (CSize 2));
                            children_ := [] |}]> ∅)).

(** A rank for these stores. *)
Definition rank_B (a : addr) : nat :=
  match a with
  | 1%positive => 2
  | 2%positive => 1
  | _ => 0
  end.

(** The driver's tree with one more storage node, created and committed
    but appended to nothing. *)
Definition detached : addr := 4%positive.

Definition store_C : Store :=
  <[detached := Some {| kind := KAtomicStorage (Field.mk (CSize 7)); children_ := [] |}]>
    store_B.

(** The driver's tree after [metric2->append(metric)]: the two storage
    nodes refer to each other. *)
Definition store_loop : Store :=
  <[metric2 := Some {| kind := KAtomicStorage (Field.mk (CSize 2));
                      children_ := [metric] |}]> store_B.

(** * Properties *)

(** Closed goals over the scenario stores are settled by evaluation. *)
Ltac by_evaluation := vm_compute; reflexivity.

Example main_reports :
  main = Some [ header_text +:+ " - hello" +:+ nl +:+ "   - 2" +:+ nl +:+ tail_text;
                header_text +:+ " - bye" +:+ nl +:+ tail_text;
                header_text +:+ tail_text ].
Proof. by_evaluation. Qed.

(** ** Strings *)

Lemma app_nil_r (s : string) : s +:+ "" = s.
Proof.
  induction s as [|c s IH]; [reflexivity|].
  change (String c (s +:+ "") = String c s). by rewrite IH.
Qed.

Lemma app_assoc (s1 s2 s3 : string) : (s1 +:+ s2) +:+ s3 = s1 +:+ (s2 +:+ s3).
Proof.
  induction s1 as [|c s1 IH]; [reflexivity|].
  change (String c ((s1 +:+ s2) +:+ s3) = String c (s1 +:+ (s2 +:+ s3))).
  by rewrite IH.
Qed.

Lemma cat_app (l1 l2 : list string) : cat (l1 ++ l2) = cat l1 +:+ cat l2.
Proof.
  induction l1 as [|x l1 IH]; [reflexivity|].
  cbn [cat app]. by rewrite IH, app_assoc.
Qed.

Lemma texts_app (h : Store) (t1 t2 : list (addr * N)) :
  texts h (t1 ++ t2) = texts h t1 +:+ texts h t2.
Proof. unfold texts. by rewrite fmap_app, cat_app. Qed.

(** ** The visitor's own steps *)

Lemma prefix_loop_indent (fuel : nat) (counter depth : N) (o : ostream) :
  N.to_nat (depth - counter) ≤ fuel →
  Visitor.prefix_loop fuel counter depth o = o +:+ indent (N.to_nat (depth - counter)).
Proof.
  revert counter o. induction fuel as [|fuel IH]; intros counter o Hfuel.
  - replace (N.to_nat (depth - counter)) with 0 by lia.
    cbn [Visitor.prefix_loop indent]. by rewrite app_nil_r.
  - cbn [Visitor.prefix_loop]. destruct (N.ltb_spec counter depth) as [Hlt|Hge].
    + rewrite IH by lia.
      replace (N.to_nat (depth - counter)) with (S (N.to_nat (depth - (counter + 1)))) by lia.
      cbn [indent]. by rewrite app_assoc.
    + replace (N.to_nat (depth - counter)) with 0 by lia.
      cbn [indent]. by rewrite app_nil_r.
Qed.

Lemma prefix_text (v : Visitor.t) :
  Visitor.prefix v =
  Visitor.mk (Visitor.depth v)
    (Visitor.output v +:+ indent (N.to_nat (Visitor.depth v - 1)) +:+ " - ").
Proof.
  unfold Visitor.prefix. rewrite prefix_loop_indent by lia. by rewrite app_assoc.
Qed.

Lemma stream_out_rendered (o : ostream) (c : CONTENT) :
  stream_out o c = o +:+ rendered c.
Proof. by destruct c. Qed.

Lemma own_render_text (o : Object) (v : Visitor.t) :
  own_render o v =
  Visitor.mk (Visitor.depth v) (Visitor.output v +:+ own_text (kind o) (Visitor.depth v)).
Proof.
  unfold own_render, own_text, line.
  destruct (kind o) as [| |f|f]; try (destruct v; cbn; by rewrite app_nil_r).
  all: rewrite prefix_text; unfold Visitor.suffix, Field.visit; cbn;
    by rewrite stream_out_rendered, !app_assoc.
Qed.

Lemma virtual_visit_own (h : Store) (visit1 : addr → Visitor.t → option Visitor.t)
    (o : Object) (v : Visitor.t) (children : NodeList) :
  virtual_visit h visit1 o v children = Node.visit h visit1 (own_render o v) children.
Proof. unfold virtual_visit, own_render. by destruct (kind o). Qed.

Lemma decr_after_incr (d : N) (v1 : Visitor.t) :
  (d < Visitor.SIZE_MOD)%N →
  Visitor.depth v1 = ((d + 1) mod Visitor.SIZE_MOD)%N →
  Visitor.depth (Visitor.decr v1) = d.
Proof.
  intros Hd Hv1. unfold Visitor.decr. cbn. rewrite Hv1. unfold Visitor.SIZE_MOD in *.
  destruct (decide (d + 1 = 2 ^ 64)%N) as [He|Hne].
  - rewrite He, N.Div0.mod_same. cbn [N.add]. rewrite N.mod_small; lia.
  - rewrite (N.mod_small (d + 1)) by lia.
    replace (d + 1 + 2 ^ 64 - 1)%N with (d + 1 * 2 ^ 64)%N by lia.
    rewrite N.Div0.mod_add. apply N.mod_small. lia.
Qed.

Lemma decr_incr (v : Visitor.t) :
  (Visitor.depth v < Visitor.SIZE_MOD)%N →
  Visitor.depth (Visitor.decr (Visitor.incr v)) = Visitor.depth v.
Proof. intros Hd. by apply decr_after_incr. Qed.

(** ** The traversal writes the listing *)

Lemma next_depth_lt (d : N) : ((d + 1) mod Visitor.SIZE_MOD < Visitor.SIZE_MOD)%N.
Proof. apply N.mod_lt. unfold Visitor.SIZE_MOD. lia. Qed.

Lemma for_children_listing (h : Store) (visit1 : addr → Visitor.t → option Visitor.t)
    (listing1 : addr → option (list (addr * N))) (d1 : N) (children : NodeList) :
  (∀ c v, Visitor.depth v = d1 →
     visit1 c v =
     tr ← listing1 c; Some (Visitor.mk d1 (Visitor.output v +:+ texts h tr))) →
  ∀ v, Visitor.depth v = d1 →
    Node.for_children h visit1 children v =
    trs ← mapM listing1 (filter (λ c, is_Some (lock h c)) children);
    Some (Visitor.mk d1 (Visitor.output v +:+ texts h (concat trs))).
Proof.
  intros Hrec. induction children as [|c rest IH]; intros v Hv.
  - cbn. destruct v as [d o]. cbn in *. subst. by rewrite app_nil_r.
  - cbn [Node.for_children]. destruct (lock h c) as [oc|] eqn:Hc.
    + rewrite filter_cons_True by (rewrite Hc; by eexists).
      rewrite (Hrec c v Hv). cbn [mapM]. destruct (listing1 c) as [tr|]; [|done]. cbn.
      rewrite IH by done.
      destruct (mapM listing1 _) as [trs|]; [|done]. cbn.
      by rewrite app_assoc, <- texts_app.
    + rewrite filter_cons_False by (rewrite Hc; by intros [? ?]). by apply IH.
Qed.

Lemma visit_listing (fuel : nat) (h : Store) (a : addr) (v : Visitor.t) :
  (Visitor.depth v < Visitor.SIZE_MOD)%N →
  visit fuel h a v =
  tr ← listing fuel h (Visitor.depth v) a;
  Some (Visitor.mk (Visitor.depth v) (Visitor.output v +:+ texts h tr)).
Proof.
  revert a v. induction fuel as [|fuel IH]; intros a v Hd; [done|].
  cbn [visit listing]. destruct (lock h a) as [o|] eqn:Ha; [|done].
  cbn [mbind option_bind]. rewrite virtual_visit_own. unfold Node.visit.
  rewrite (for_children_listing h (visit fuel h)
             (listing fuel h ((Visitor.depth v + 1) mod Visitor.SIZE_MOD)%N)
             ((Visitor.depth v + 1) mod Visitor.SIZE_MOD)%N).
  - destruct (mapM _ _) as [trs|]; [|done]. cbn.
    f_equal. unfold Visitor.decr. cbn.
    pose proof (decr_incr v Hd) as Hdi. unfold Visitor.decr, Visitor.incr in Hdi.
    cbn in Hdi. rewrite Hdi. f_equal.
    rewrite own_render_text. cbn.
    unfold text at 1. cbn [fst snd]. rewrite Ha. by rewrite app_assoc.
  - intros c vc Hvc. rewrite IH by (rewrite Hvc; apply next_depth_lt).
    rewrite Hvc. done.
  - rewrite own_render_text. done.
Qed.

(** ** Stores without a cycle are traversed to the end *)

Lemma lock_Some (h : Store) (a : addr) (o : Object) :
  lock h a = Some o ↔ h !! a = Some (Some o).
Proof.
  unfold lock. destruct (h !! a) as [[o'|]|]; cbn; split; intros H; by simplify_eq.
Qed.

Lemma ranked_Ranked (rk : addr → nat) (h : Store) :
  ranked rk h = true → Ranked rk h.
Proof.
  intros Hrk a o c Ha Hc [oc Hlive]. apply lock_Some in Ha.
  unfold ranked in Hrk. rewrite forallb_forall in Hrk.
  specialize (Hrk (a, Some o)). cbn in Hrk.
  assert (Hin : In (a, Some o) (map_to_list h))
    by (apply list_elem_of_In; by apply elem_of_map_to_list).
  specialize (Hrk Hin). rewrite forallb_forall in Hrk.
  specialize (Hrk c (proj1 (list_elem_of_In _ _) Hc)). cbn in Hrk.
  rewrite Hlive in Hrk. by apply Nat.ltb_lt.
Qed.

Lemma mapM_total {A B : Type} (f : A → option B) (l : list A) :
  (∀ x, x ∈ l → is_Some (f x)) → is_Some (mapM f l).
Proof. intros Hall. apply mapM_is_Some. by apply Forall_forall. Qed.

Lemma listing_total (rk : addr → nat) (h : Store) :
  Ranked rk h →
  ∀ fuel d a, is_Some (lock h a) → rk a < fuel → is_Some (listing fuel h d a).
Proof.
  intros Hrk. induction fuel as [|fuel IH]; intros d a [o Ha] Hfuel; [lia|].
  cbn [listing]. rewrite Ha. cbn [mbind option_bind].
  destruct (mapM_total (listing fuel h ((d + 1) mod Visitor.SIZE_MOD)%N)
              (filter (λ c, is_Some (lock h c)) (children_ o))) as [trs Htrs].
  - intros c [Hlive Hc]%list_elem_of_filter. apply IH; [done|].
    pose proof (Hrk a o c Ha Hc Hlive). lia.
  - rewrite Htrs. by eexists.
Qed.

(** ** [Root::visit] *)

Lemma Root_visit_listing (fuel : nat) (h : Store) (r : addr) (o : Object) (cout : ostream) :
  lock h r = Some o → kind o = KRoot →
  Root.visit fuel h r cout =
  tr ← listing fuel h 0 r;
  Some (cout +:+ header_text +:+ texts h tr +:+ tail_text).
Proof.
  intros Hr Hk. unfold Root.visit. rewrite Hr. destruct o as [k ch]. cbn in Hk. subst k.
  rewrite visit_listing by (cbn; unfold Visitor.SIZE_MOD; lia). cbn.
  destruct (listing fuel h 0 r) as [tr|]; [|done]. cbn. f_equal.
  unfold Visitor.dtor, Visitor.tail, endl, header_text, tail_text. cbn.
  by rewrite !app_assoc.
Qed.

Lemma Root_visit_returns (rk : addr → nat) (fuel : nat) (h : Store) (r : addr)
    (o : Object) (cout : ostream) :
  lock h r = Some o → kind o = KRoot →
  ranked rk h = true → rk r < fuel →
  is_Some (Root.visit fuel h r cout).
Proof.
  intros Hr Hk Hrk Hfuel. rewrite (Root_visit_listing fuel h r o) by done.
  destruct (listing_total rk h (ranked_Ranked rk h Hrk) fuel 0 r) as [tr Htr];
    [by eexists|done|].
  rewrite Htr. by eexists.
Qed.

Lemma filter_live_dead (h : Store) (children : NodeList) :
  Forall (λ c, lock h c = None) children →
  filter (λ c, is_Some (lock h c)) children = [].
Proof.
  induction 1 as [|c rest Hc _ IH]; [done|].
  rewrite filter_cons_False by (rewrite Hc; by intros [? ?]). done.
Qed.

(** ** Scenarios and framing *)

(** C10: a root whose child list is empty, or holds only references that
    no longer resolve, writes the header line, the footer line and two
    blank lines, and nothing in between. *)
Theorem Root_visit_no_live_child (fuel : nat) (h : Store) (r : addr)
    (children : NodeList) (cout : ostream) :
  lock h r = Some {| kind := KRoot; children_ := children |} →
  Forall (λ c, lock h c = None) children →
  Root.visit (S fuel) h r cout =
  Some (cout +:+ " -!- R E P O R T -!-" +:+ nl +:+
        " -@- _ _ _ _ _ _ -@-" +:+ nl +:+ nl +:+ nl).
Proof.
  intros Hr Hdead. rewrite (Root_visit_listing _ _ _ _ _ Hr eq_refl).
  cbn [listing]. rewrite Hr. cbn [children_ mbind option_bind].
  rewrite filter_live_dead by done. cbn.
  unfold texts, text. cbn. rewrite Hr. cbn. done.
Qed.

Lemma Root_visit_no_live_child_witness :
  Root.visit 1 (release metric store_A) root0 "" =
  Some (" -!- R E P O R T -!-" +:+ nl +:+ " -@- _ _ _ _ _ _ -@-" +:+ nl +:+ nl +:+ nl).
Proof.
  apply (Root_visit_no_live_child 0 (release metric store_A) root0 [metric] "").
  - by_evaluation.
  - repeat constructor.
Defined.

(** C1, as the code has it: for a root with exactly one
    [AtomicStorage<string>] child committed to ["hello"] and no
    grandchildren, the body of the report is the single line [ - hello]:
    the leaf marker [ - ] followed at once by the rendered value. *)
Theorem Root_visit_scenario_A (fuel : nat) (h : Store) (r m : addr) (cout : ostream) :
  lock h r = Some {| kind := KRoot; children_ := [m] |} →
  lock h m = Some {| kind := KAtomicStorage (Field.mk (CString "hello"));
                     children_ := [] |} →
  Root.visit (S (S fuel)) h r cout =
  Some (cout +:+ header_text +:+ " - hello" +:+ nl +:+ tail_text).
Proof.
  intros Hr Hm. rewrite (Root_visit_listing _ _ _ _ _ Hr eq_refl).
  cbn [listing]. rewrite Hr. cbn [children_ mbind option_bind].
  rewrite filter_cons_True by (rewrite Hm; by eexists). rewrite filter_nil.
  cbn [mapM]. rewrite Hm. cbn. unfold texts, text. cbn. rewrite Hr, Hm. cbn. done.
Qed.

Lemma Root_visit_scenario_A_witness :
  Root.visit 2 store_A root0 "" =
  Some ("" +:+ header_text +:+ " - hello" +:+ nl +:+ tail_text).
Proof.
  apply (Root_visit_scenario_A 0 store_A root0 metric "");
    by_evaluation.
Defined.

(** C1 as stated fails: the line does not have two spaces after the dash. *)
Lemma scenario_A_line_has_one_space :
  Root.visit 2 store_A root0 "" ≠
  Some (header_text +:+ " -  hello" +:+ nl +:+ tail_text).
Proof. vm_compute. discriminate. Qed.

(** ** [trim] *)

(** C2, as the code has it: in a build that keeps assertions ([NDEBUG] not
    defined) every call of [trim] aborts. *)
Theorem trim_aborts_with_assertions (a : addr) (h : Store) :
  Node.trim false a h = Node.Aborted.
Proof. reflexivity. Qed.

(** C2 as stated fails: with [NDEBUG] defined the assertion is compiled
    away and [trim] returns, leaving the store as it was. *)
Lemma trim_returns_under_NDEBUG :
  Node.trim true root0 store0 = Node.Returned store0 ∧
  Node.trim true root0 store0 ≠ Node.Aborted.
Proof. split; [reflexivity|discriminate]. Qed.

(** ** References that no longer resolve *)

Lemma lock_release (c : addr) (h : Store) : lock (release c h) c = None.
Proof. unfold lock, release. by rewrite lookup_insert_eq. Qed.

Lemma lock_release_ne (c a : addr) (h : Store) :
  c ≠ a → lock (release c h) a = lock h a.
Proof. intros Hne. unfold lock, release. by rewrite lookup_insert_ne. Qed.

Lemma lock_purge (c a : addr) (h : Store) :
  lock (purge c h) a =
  (λ o, {| kind := kind o; children_ := filter (λ x, x ≠ c) (children_ o) |}) <$> lock h a.
Proof. unfold lock, purge. rewrite lookup_fmap. by destruct (h !! a) as [[o|]|]. Qed.

Lemma for_children_ext (h h' : Store) (visit1 visit1' : addr → Visitor.t → option Visitor.t)
    (children : NodeList) (v : Visitor.t) :
  (∀ x, is_Some (lock h x) ↔ is_Some (lock h' x)) →
  (∀ x w, visit1 x w = visit1' x w) →
  Node.for_children h visit1 children v = Node.for_children h' visit1' children v.
Proof.
  intros Hlive Hrec. revert v. induction children as [|x rest IH]; intros v; [done|].
  cbn [Node.for_children]. specialize (Hlive x).
  destruct (lock h x) as [ox|], (lock h' x) as [ox'|].
  - rewrite Hrec. destruct (visit1' x v); cbn; [apply IH|done].
  - destruct Hlive as [Hl _]. destruct Hl as [? ?]; by eauto.
  - destruct Hlive as [_ Hl]. destruct Hl as [? ?]; by eauto.
  - apply IH.
Qed.

Lemma for_children_skip (h : Store) (visit1 : addr → Visitor.t → option Visitor.t)
    (c : addr) (before after : NodeList) (v : Visitor.t) :
  lock h c = None →
  Node.for_children h visit1 (before ++ c :: after) v =
  Node.for_children h visit1 (before ++ after) v.
Proof.
  intros Hc. revert v. induction before as [|x rest IH]; intros v.
  - cbn [app Node.for_children]. by rewrite Hc.
  - cbn [app Node.for_children]. destruct (lock h x); [|apply IH].
    destruct (visit1 x v); cbn; [apply IH|done].
Qed.

Lemma for_children_filter (h : Store) (visit1 : addr → Visitor.t → option Visitor.t)
    (c : addr) (children : NodeList) (v : Visitor.t) :
  lock h c = None →
  Node.for_children h visit1 (filter (λ x, x ≠ c) children) v =
  Node.for_children h visit1 children v.
Proof.
  intros Hc. revert v. induction children as [|x rest IH]; intros v; [done|].
  destruct (decide (x = c)) as [->|Hne].
  - rewrite filter_cons_False by (intros Hn; by apply Hn).
    cbn [Node.for_children]. rewrite Hc. apply IH.
  - rewrite filter_cons_True by done. cbn [Node.for_children].
    destruct (lock h x); [|apply IH]. destruct (visit1 x v); cbn; [apply IH|done].
Qed.

Lemma visit_purge (h : Store) (c : addr) :
  lock h c = None →
  ∀ fuel a v, visit fuel h a v = visit fuel (purge c h) a v.
Proof.
  intros Hc. induction fuel as [|fuel IH]; intros a v; [done|].
  cbn [visit]. rewrite lock_purge. destruct (lock h a) as [o|]; [|done].
  cbn [fmap option_fmap option_map]. rewrite !virtual_visit_own. cbn [children_].
  unfold own_render at 2. cbn [kind]. fold (own_render o v).
  unfold Node.visit. f_equal.
  rewrite <- (for_children_filter h (visit fuel h) c (children_ o)) by done.
  apply for_children_ext; [|done].
  intros x. rewrite lock_purge. destruct (lock h x); cbn; split; intros [? ?]; by eauto.
Qed.

(** C3: a child reference that no longer resolves is skipped.  The loop
    over a child list that holds it does what it does without it, for every
    dynamic type of the parent: nothing is written for it, the result is
    not an error, the references after it are visited.  Hence a whole
    traversal, and the report of [Root::visit], is that of the store in
    which no child list mentions the destroyed object; and [Root::visit]
    returns a report whenever the live part of the store has no cycle. *)
Theorem expired_reference_skipped (h : Store) (c : addr) :
  lock h c = None →
  (∀ visit1 o v before after,
     virtual_visit h visit1 o v (before ++ c :: after) =
     virtual_visit h visit1 o v (before ++ after)) ∧
  (∀ fuel a v, visit fuel h a v = visit fuel (purge c h) a v) ∧
  (∀ fuel r cout, Root.visit fuel h r cout = Root.visit fuel (purge c h) r cout) ∧
  (∀ rk fuel r o cout,
     lock h r = Some o → kind o = KRoot →
     ranked rk h = true → rk r < fuel →
     is_Some (Root.visit fuel h r cout)).
Proof.
  intros Hc. split; [|split; [|split]].
  - intros visit1 o v before after. rewrite !virtual_visit_own. unfold Node.visit.
    by rewrite for_children_skip.
  - by apply visit_purge.
  - intros fuel r cout. unfold Root.visit. rewrite lock_purge.
    destruct (lock h r) as [[k ch]|]; [|done]. cbn.
    destruct k; try done. by rewrite <- visit_purge.
  - intros rk fuel r o cout Hr Hk Hrk Hfuel. by eapply Root_visit_returns.
Qed.

(** Scenario D on the driver's tree: once the owner of the inner node is
    gone, the report is the one of the tree without that reference, and
    has the outer node's line only. *)
Lemma expired_reference_skipped_witness :
  lock (release metric2 store_B) metric2 = None ∧
  Root.visit 3 (release metric2 store_B) root0 "" =
  Root.visit 3 (purge metric2 (release metric2 store_B)) root0 "" ∧
  Root.visit 3 (release metric2 store_B) root0 "" =
  Some (header_text +:+ (" - " +:+ "hello" +:+ nl) +:+ tail_text).
Proof.
  split; [apply lock_release|]. split.
  - apply (proj1 (proj2 (proj2 (expired_reference_skipped
                                  (release metric2 store_B) metric2 (lock_release _ _))))).
  - by_evaluation.
Defined.

(** ** Depth *)

Lemma virtual_visit_listing (fuel : nat) (h : Store) (o : Object) (v : Visitor.t)
    (children : NodeList) :
  (Visitor.depth v < Visitor.SIZE_MOD)%N →
  virtual_visit h (visit fuel h) o v children =
  trs ← mapM (listing fuel h ((Visitor.depth v + 1) mod Visitor.SIZE_MOD)%N)
          (filter (λ c, is_Some (lock h c)) children);
  Some (Visitor.mk (Visitor.depth v)
          (Visitor.output v +:+ own_text (kind o) (Visitor.depth v) +:+
           texts h (concat trs))).
Proof.
  intros Hd. rewrite virtual_visit_own. unfold Node.visit.
  rewrite (for_children_listing h (visit fuel h)
             (listing fuel h ((Visitor.depth v + 1) mod Visitor.SIZE_MOD)%N)
             ((Visitor.depth v + 1) mod Visitor.SIZE_MOD)%N).
  - destruct (mapM _ _) as [trs|]; [|done]. cbn. f_equal.
    pose proof (decr_incr v Hd) as Hdi. unfold Visitor.decr, Visitor.incr in *.
    cbn in *. rewrite Hdi. f_equal. rewrite own_render_text. cbn.
    by rewrite app_assoc.
  - intros c vc Hvc. rewrite visit_listing by (rewrite Hvc; apply next_depth_lt).
    by rewrite Hvc.
  - by rewrite own_render_text.
Qed.

Lemma visit_depth (fuel : nat) (h : Store) (a : addr) (v v' : Visitor.t) :
  (Visitor.depth v < Visitor.SIZE_MOD)%N →
  visit fuel h a v = Some v' → Visitor.depth v' = Visitor.depth v.
Proof.
  intros Hd. rewrite visit_listing by done.
  destruct (listing _ _ _ _); cbn; intros Hv; by simplify_eq.
Qed.

Lemma for_children_depth (fuel : nat) (h : Store) (children : NodeList) (v v' : Visitor.t) :
  (Visitor.depth v < Visitor.SIZE_MOD)%N →
  Node.for_children h (visit fuel h) children v = Some v' →
  Visitor.depth v' = Visitor.depth v.
Proof.
  revert v. induction children as [|c rest IH]; intros v Hd; cbn [Node.for_children].
  - intros Hv. by simplify_eq.
  - destruct (lock h c); [|by apply IH].
    destruct (visit fuel h c v) as [v1|] eqn:Hv1; cbn; [|done].
    apply visit_depth in Hv1; [|done]. intros Hv'. apply IH in Hv'; [|by rewrite Hv1].
    by rewrite Hv', Hv1.
Qed.

(** C9: the two-argument [visit] of a node of any dynamic type, on any
    child list and from any starting depth [d], returns with the depth at
    [d] again: the children are traversed one level down, from [d + 1] and
    back at [d + 1] when the loop ends, and the decrement undoes the
    increment.  The call does return when the live part of the store has no
    cycle. *)
Theorem visit_restores_depth (h : Store) (o : Object) (children : NodeList)
    (v : Visitor.t) :
  (Visitor.depth v < Visitor.SIZE_MOD)%N →
  (∀ fuel v',
     virtual_visit h (visit fuel h) o v children = Some v' →
     Visitor.depth v' = Visitor.depth v ∧
     ∃ v1,
       Node.for_children h (visit fuel h) children (Visitor.incr (own_render o v)) = Some v1 ∧
       Visitor.depth (Visitor.incr (own_render o v)) =
         ((Visitor.depth v + 1) mod Visitor.SIZE_MOD)%N ∧
       Visitor.depth v1 = ((Visitor.depth v + 1) mod Visitor.SIZE_MOD)%N ∧
       v' = Visitor.decr v1) ∧
  (∀ rk fuel,
     ranked rk h = true →
     (∀ c, c ∈ children → is_Some (lock h c) → rk c < fuel) →
     is_Some (virtual_visit h (visit fuel h) o v children)).
Proof.
  intros Hd.
  assert (Hstart : Visitor.depth (Visitor.incr (own_render o v)) =
                   ((Visitor.depth v + 1) mod Visitor.SIZE_MOD)%N)
    by (by rewrite own_render_text).
  split.
  - intros fuel v'. rewrite virtual_visit_own. unfold Node.visit.
    destruct (Node.for_children h (visit fuel h) children
                (Visitor.incr (own_render o v))) as [v1|] eqn:Hloop; [|done].
    cbn. intros Hv'. simplify_eq.
    assert (Hv1 : Visitor.depth v1 = ((Visitor.depth v + 1) mod Visitor.SIZE_MOD)%N).
    { apply for_children_depth in Hloop; [by rewrite Hloop|].
      rewrite Hstart. apply next_depth_lt. }
    split; [by apply decr_after_incr|]. by exists v1.
  - intros rk fuel Hrk Hfuel. rewrite virtual_visit_listing by done.
    destruct (mapM_total (listing fuel h ((Visitor.depth v + 1) mod Visitor.SIZE_MOD)%N)
                (filter (λ c, is_Some (lock h c)) children)) as [trs Htrs].
    + intros c [Hlive Hc]%list_elem_of_filter.
      apply (listing_total rk); [by apply ranked_Ranked|done|by apply Hfuel].
    + rewrite Htrs. by eexists.
Qed.

Lemma visit_restores_depth_witness :
  ∃ v', virtual_visit store_B (visit 2 store_B) {| kind := KRoot; children_ := [metric] |}
          (Visitor.mk 0 "") [metric] = Some v' ∧
        Visitor.depth v' = 0%N.
Proof.
  destruct (visit_restores_depth store_B {| kind := KRoot; children_ := [metric] |}
              [metric] (Visitor.mk 0 "")) as [Hrestore Hreturns].
  - by_evaluation.
  - destruct (Hreturns rank_B 2) as [v' Hv'].
    + by_evaluation.
    + intros c Hc _. apply list_elem_of_singleton in Hc. subst c. cbn. lia.
    + exists v'. split; [exact Hv'|]. exact (proj1 (Hrestore 2 v' Hv')).
Defined.

(** ** Reports depend on the store only *)

(** C8: what [Root::visit] writes is the same text whatever the sink held
    before, and the traversal takes the store read-only: when a call has
    returned, a second call right after it, with no commit, append or
    destruction in between, returns too and writes the same bytes.  The
    call does return when the live part of the store has no cycle. *)
Theorem Root_visit_twice (fuel : nat) (h : Store) (r : addr) (o : Object)
    (cout : ostream) :
  lock h r = Some o → kind o = KRoot →
  (∀ cout1,
     Root.visit fuel h r cout = Some cout1 →
     ∃ report,
       cout1 = cout +:+ report ∧
       Root.visit fuel h r cout1 = Some (cout1 +:+ report)) ∧
  (∀ rk, ranked rk h = true → rk r < fuel → is_Some (Root.visit fuel h r cout)).
Proof.
  intros Hr Hk. split.
  - intros cout1. rewrite !(Root_visit_listing fuel h r o) by done.
    destruct (listing fuel h 0 r) as [tr|]; [|done]. cbn. intros Hc. simplify_eq.
    by exists (header_text +:+ texts h tr +:+ tail_text).
  - intros rk Hrk Hfuel. by eapply Root_visit_returns.
Qed.

Lemma Root_visit_twice_witness :
  ∃ cout1 report,
    Root.visit 3 store_B root0 "" = Some cout1 ∧
    cout1 = "" +:+ report ∧
    Root.visit 3 store_B root0 cout1 = Some (cout1 +:+ report).
Proof.
  destruct (Root_visit_twice 3 store_B root0
              {| kind := KRoot; children_ := [metric] |} "") as [Hsame Hreturns].
  - by_evaluation.
  - reflexivity.
  - destruct (Hreturns rank_B) as [cout1 Hcout1].
    + by_evaluation.
    + cbn. lia.
    + destruct (Hsame cout1 Hcout1) as (report & Hrep & Hagain).
      exists cout1, report. split; [exact Hcout1|]. split; [exact Hrep|exact Hagain].
Defined.

(** ** [commit] *)

Lemma lock_insert (h : Store) (a x : addr) (o : Object) :
  lock (<[a := Some o]> h) x = if decide (a = x) then Some o else lock h x.
Proof. unfold lock. rewrite lookup_insert. by case_decide. Qed.

Lemma Field_assign (f newValue : Field.t) : Field.assign f newValue = newValue.
Proof. by destruct newValue. Qed.

Lemma AtomicStorage_commit_lock (a : addr) (newValue : Field.t) (h h' : Store) :
  AtomicStorage.commit a newValue h = Some h' →
  ∃ f children,
    lock h a = Some {| kind := KAtomicStorage f; children_ := children |} ∧
    ∀ x, lock h' x =
         if decide (a = x)
         then Some {| kind := KAtomicStorage newValue; children_ := children |}
         else lock h x.
Proof.
  unfold AtomicStorage.commit, lock_guard.
  destruct (lock h a) as [[[| |f|f] ch]|] eqn:Ha; try done.
  destruct (same_type _ _); [|done]. intros Hh'. simplify_eq.
  exists f, ch. split; [done|]. intros x. by rewrite lock_insert, Field_assign.
Qed.

Lemma Storage_commit_lock (a : addr) (newValue : Field.t) (h h' : Store) :
  Storage.commit a newValue h = Some h' →
  ∃ f children,
    lock h a = Some {| kind := KStorage f; children_ := children |} ∧
    ∀ x, lock h' x =
         if decide (a = x)
         then Some {| kind := KStorage newValue; children_ := children |}
         else lock h x.
Proof.
  unfold Storage.commit.
  destruct (lock h a) as [[[| |f|f] ch]|] eqn:Ha; try done.
  destruct (same_type _ _); [|done]. intros Hh'. simplify_eq.
  exists f, ch. split; [done|]. intros x. by rewrite lock_insert, Field_assign.
Qed.

Lemma same_shape_live (h h' : Store) (x : addr) :
  same_shape h h' → is_Some (lock h x) ↔ is_Some (lock h' x).
Proof.
  intros Hs. specialize (Hs x).
  destruct (lock h x), (lock h' x); cbn in Hs; done.
Qed.

Lemma listing_same_shape (h h' : Store) :
  same_shape h h' → ∀ fuel d a, listing fuel h d a = listing fuel h' d a.
Proof.
  intros Hs. induction fuel as [|fuel IH]; intros d a; [done|].
  cbn [listing]. pose proof (Hs a) as Ha.
  destruct (lock h a) as [o|], (lock h' a) as [o'|]; cbn in Ha; try done.
  cbn [mbind option_bind]. simplify_eq. rewrite Ha.
  rewrite (list_filter_iff (λ c, is_Some (lock h c)) (λ c, is_Some (lock h' c)))
    by (intros x; by apply same_shape_live).
  by rewrite (mapM_ext _ (listing fuel h' ((d + 1) mod Visitor.SIZE_MOD)%N)).
Qed.

Lemma Ranked_same_shape (rk : addr → nat) (h h' : Store) :
  same_shape h h' → Ranked rk h → Ranked rk h'.
Proof.
  intros Hs Hrk a o c Ha Hc Hlive. pose proof (Hs a) as Hsa. rewrite Ha in Hsa.
  destruct (lock h a) as [o0|] eqn:Ha0; cbn in Hsa; [|done]. simplify_eq.
  apply (Hrk a o0 c); [done|by rewrite Hsa|].
  by apply (same_shape_live h h').
Qed.

Lemma commit_same_shape (k : Kind) (nk : Kind) (a : addr) (children : NodeList) (h h' : Store) :
  lock h a = Some {| kind := k; children_ := children |} →
  (∀ x, lock h' x =
        if decide (a = x) then Some {| kind := nk; children_ := children |}
        else lock h x) →
  same_shape h h'.
Proof.
  intros Ha Hh' x. rewrite Hh'. case_decide; [|done]. subst x. by rewrite Ha.
Qed.

Lemma listing_head (fuel : nat) (h : Store) (d : N) (a : addr) (tr : list (addr * N)) :
  listing fuel h d a = Some tr → ∃ rest, tr = (a, d) :: rest.
Proof.
  destruct fuel as [|fuel]; [done|]. cbn [listing].
  destruct (lock h a); [|done]. cbn [mbind option_bind].
  destruct (mapM _ _) as [trs|]; [|done]. cbn. intros Htr. simplify_eq. by eexists.
Qed.

(** C6: after [commit(newValue)] on an [AtomicStorage] node the node holds
    [newValue], and a sequential traversal of the node that returns has
    written, first of all, the node's line with [newValue] rendered in it.
    The traversal does return when the live part of the store has no
    cycle. *)
Theorem commit_then_visit (fuel : nat) (h h' : Store) (a : addr)
    (newValue : Field.t) (v : Visitor.t) :
  AtomicStorage.commit a newValue h = Some h' →
  (Visitor.depth v < Visitor.SIZE_MOD)%N →
  (∃ children,
     lock h' a = Some {| kind := KAtomicStorage newValue; children_ := children |}) ∧
  (∀ v',
     visit fuel h' a v = Some v' →
     ∃ rest,
       Visitor.output v' =
       Visitor.output v +:+
       (indent (N.to_nat (Visitor.depth v - 1)) +:+ " - " +:+
        rendered (Field.content newValue) +:+ nl) +:+ rest) ∧
  (∀ rk, ranked rk h = true → rk a < fuel → is_Some (visit fuel h' a v)).
Proof.
  intros Hcommit Hd.
  destruct (AtomicStorage_commit_lock a newValue h h' Hcommit) as (f & ch & Ha & Hh').
  pose proof (commit_same_shape _ (KAtomicStorage newValue) a ch h h' Ha Hh') as Hs.
  assert (Ha' : lock h' a = Some {| kind := KAtomicStorage newValue; children_ := ch |})
    by (rewrite Hh'; by case_decide).
  split; [by exists ch|]. split.
  - intros v'. rewrite visit_listing by done.
    destruct (listing fuel h' _ a) as [tr|] eqn:Htr; [|done]. cbn. intros Hv'.
    destruct (listing_head _ _ _ _ _ Htr) as [rest ->]. simplify_eq.
    exists (texts h' rest). cbn. unfold texts. cbn [fmap list_fmap cat].
    unfold text at 1. cbn [fst snd]. by rewrite Ha'.
  - intros rk Hrk Hfuel. rewrite visit_listing by done.
    destruct (listing_total rk h' (Ranked_same_shape rk h h' Hs (ranked_Ranked rk h Hrk))
                fuel (Visitor.depth v) a) as [tr Htr]; [by eexists|done|].
    rewrite Htr. by eexists.
Qed.

Lemma commit_then_visit_witness :
  ∃ h' v' rest,
    AtomicStorage.commit metric (Field.mk (CString "bye")) store_B = Some h' ∧
    visit 2 h' metric (Visitor.mk 1 "") = Some v' ∧
    Visitor.output v' = "" +:+ (" - " +:+ "bye" +:+ nl) +:+ rest.
Proof.
  destruct (commit_then_visit 2 store_B
              (<[metric := Some {| kind := KAtomicStorage (Field.mk (CString "bye"));
                                  children_ := [metric2] |}]> store_B)
              metric (Field.mk (CString "bye")) (Visitor.mk 1 ""))
    as (_ & Hline & Hreturns).
  - reflexivity.
  - by_evaluation.
  - destruct (Hreturns rank_B) as [v' Hv'].
    + by_evaluation.
    + cbn. lia.
    + destruct (Hline v' Hv') as [rest Hrest].
      eexists _, v', rest. split; [reflexivity|]. split; [exact Hv'|exact Hrest].
Defined.

(** C7: recommitting one storage node changes that node's line and
    nothing else.  When [Root::visit] has written a report, the visit after
    a [commit] on the node at [a] writes a report with the same entries in
    the same order; the text of every entry is what it was, except for the
    entries of the node at [a], which show the new value at the same
    depth. *)
Theorem recommit_changes_one_line (fuel : nat) (h h' : Store) (r a : addr) (o : Object)
    (newValue : Field.t) (cout report : ostream) :
  lock h r = Some o → kind o = KRoot →
  AtomicStorage.commit a newValue h = Some h' ∨ Storage.commit a newValue h = Some h' →
  Root.visit fuel h r cout = Some report →
  ∃ tr,
    report = cout +:+ header_text +:+ cat (text h <$> tr) +:+ tail_text ∧
    Root.visit fuel h' r cout =
      Some (cout +:+ header_text +:+ cat (text h' <$> tr) +:+ tail_text) ∧
    Forall (λ e, text h' e =
                 if decide (e.1 = a)
                 then indent (N.to_nat (e.2 - 1)) +:+ " - " +:+
                      rendered (Field.content newValue) +:+ nl
                 else text h e) tr.
Proof.
  intros Hr Hk Hcommit Hvisit.
  assert (∃ k nk ch,
            lock h a = Some {| kind := k; children_ := ch |} ∧ k ≠ KRoot ∧
            (nk = KAtomicStorage newValue ∨ nk = KStorage newValue) ∧
            ∀ x, lock h' x =
                 if decide (a = x) then Some {| kind := nk; children_ := ch |}
                 else lock h x) as (k & nk & ch & Ha & Hroot & Hnk & Hh').
  { destruct Hcommit as [Hc|Hc].
    - destruct (AtomicStorage_commit_lock a newValue h h' Hc) as (f & ch & Ha & Hh').
      exists (KAtomicStorage f), (KAtomicStorage newValue), ch. eauto.
    - destruct (Storage_commit_lock a newValue h h' Hc) as (f & ch & Ha & Hh').
      exists (KStorage f), (KStorage newValue), ch. eauto. }
  pose proof (commit_same_shape k nk a ch h h' Ha Hh') as Hs.
  assert (Hne : a ≠ r).
  { intros ->. rewrite Hr in Ha. destruct o as [ko cho]. cbn in Hk. by simplify_eq. }
  assert (Hr' : lock h' r = Some o) by (rewrite Hh'; by case_decide).
  rewrite (Root_visit_listing fuel h r o) in Hvisit by done.
  rewrite (Root_visit_listing fuel h' r o) by done.
  rewrite <- (listing_same_shape h h' Hs).
  destruct (listing fuel h 0 r) as [tr|]; [|done]. cbn in Hvisit. simplify_eq.
  exists tr. split; [done|]. split; [done|].
  apply Forall_forall. intros [b d] _. unfold text. cbn [fst snd]. rewrite Hh'.
  destruct (decide (a = b)) as [->|Hab].
  - rewrite decide_True by done. cbn. by destruct Hnk as [-> | ->].
  - by rewrite decide_False by done.
Qed.

Lemma recommit_changes_one_line_witness :
  ∃ tr,
    header_text +:+ (" - " +:+ "hello" +:+ nl) +:+ ("   - " +:+ "2" +:+ nl) +:+ tail_text =
      "" +:+ header_text +:+ cat (text store_B <$> tr) +:+ tail_text ∧
    Root.visit 3 (<[metric := Some {| kind := KAtomicStorage (Field.mk (CString "bye"));
                                     children_ := [metric2] |}]> store_B) root0 "" =
      Some ("" +:+ header_text +:+
            cat (text (<[metric := Some {| kind := KAtomicStorage (Field.mk (CString "bye"));
                                          children_ := [metric2] |}]> store_B) <$> tr) +:+
            tail_text) ∧
    Forall (λ e, text (<[metric := Some {| kind := KAtomicStorage (Field.mk (CString "bye"));
                                          children_ := [metric2] |}]> store_B) e =
                 if decide (e.1 = metric)
                 then indent (N.to_nat (e.2 - 1)) +:+ " - " +:+
                      rendered (Field.content (Field.mk (CString "bye"))) +:+ nl
                 else text store_B e) tr.
Proof.
  apply (recommit_changes_one_line 3 store_B _ root0 metric
           {| kind := KRoot; children_ := [metric] |} (Field.mk (CString "bye")) "").
  - by_evaluation.
  - reflexivity.
  - left. reflexivity.
  - by_evaluation.
Defined.

(** ** What is listed is what is reachable *)

Lemma mapM_concat_elem {A B : Type} (f : A → option (list B)) (l : list A)
    (trs : list (list B)) (e : B) :
  mapM f l = Some trs →
  e ∈ concat trs ↔ ∃ x t, x ∈ l ∧ f x = Some t ∧ e ∈ t.
Proof.
  revert trs. induction l as [|x l IH]; intros trs; cbn [mapM].
  - intros Htrs. injection Htrs as <-. cbn [concat].
    split; [by intros ?%elem_of_nil|]. by intros (x & t & ?%elem_of_nil & _).
  - destruct (f x) as [t|] eqn:Hfx; cbn; [|done].
    destruct (mapM f l) as [ts|] eqn:Hl; cbn; [|done].
    intros Htrs. injection Htrs as <-. cbn [concat]. rewrite elem_of_app, (IH ts eq_refl).
    split.
    + intros [He|(y & u & Hy & Hfy & He)].
      * exists x, t. split; [by left|done].
      * exists y, u. split; [by right|done].
    + intros (y & u & Hy & Hfy & He). apply elem_of_cons in Hy as [->|Hy].
      * left. by simplify_eq.
      * right. by exists y, u.
Qed.

Lemma reach_live (h : Store) (a b : addr) : reach h a b → is_Some (lock h a).
Proof. destruct 1; by eauto. Qed.

Lemma listing_reach (fuel : nat) (h : Store) (d : N) (a : addr) (tr : list (addr * N))
    (b : addr) (d' : N) :
  listing fuel h d a = Some tr → (b, d') ∈ tr → reach h a b.
Proof.
  revert d a tr. induction fuel as [|fuel IH]; intros d a tr; [done|].
  cbn [listing]. destruct (lock h a) as [o|] eqn:Ha; [|done]. cbn [mbind option_bind].
  destruct (mapM _ _) as [trs|] eqn:Htrs; [|done]. cbn. intros Htr Hb. simplify_eq.
  apply elem_of_cons in Hb as [Hb|Hb].
  - simplify_eq. apply reach_here. by eexists.
  - apply (mapM_concat_elem _ _ _ _ Htrs) in Hb as (c & t & Hc & Ht & Hb).
    apply list_elem_of_filter in Hc as [_ Hc].
    eapply reach_child; [done|done|]. by eapply IH.
Qed.

Lemma reach_listing (h : Store) (a b : addr) :
  reach h a b →
  ∀ fuel d tr, listing fuel h d a = Some tr → ∃ d', (b, d') ∈ tr.
Proof.
  induction 1 as [a Ha|a o c b Ha Hc Hreach IH]; intros fuel d tr Htr.
  - destruct (listing_head _ _ _ _ _ Htr) as [rest ->]. exists d. by left.
  - destruct fuel as [|fuel]; [done|]. cbn [listing] in Htr. rewrite Ha in Htr.
    cbn [mbind option_bind] in Htr.
    destruct (mapM _ _) as [trs|] eqn:Htrs; [|done]. cbn in Htr. simplify_eq.
    assert (Hcf : c ∈ filter (λ c, is_Some (lock h c)) (children_ o))
      by (apply list_elem_of_filter; split; [by eapply reach_live|done]).
    pose proof (proj1 (mapM_is_Some _ _) (mk_is_Some _ _ Htrs)) as Hall.
    rewrite Forall_forall in Hall. destruct (Hall c Hcf) as [t Ht].
    destruct (IH fuel _ t Ht) as [d' Hd']. exists d'. right.
    apply (mapM_concat_elem _ _ _ _ Htrs). by exists c, t.
Qed.

Lemma listing_children_app (h : Store) (listing1 : addr → option (list (addr * N)))
    (l1 l2 : NodeList) (trs : list (list (addr * N))) :
  mapM listing1 (filter (λ c, is_Some (lock h c)) (l1 ++ l2)) = Some trs →
  ∃ ts1 ts2,
    mapM listing1 (filter (λ c, is_Some (lock h c)) l1) = Some ts1 ∧
    mapM listing1 (filter (λ c, is_Some (lock h c)) l2) = Some ts2 ∧
    concat trs = concat ts1 ++ concat ts2.
Proof.
  rewrite filter_app. generalize (filter (λ c, is_Some (lock h c)) l1) as k1.
  generalize (filter (λ c, is_Some (lock h c)) l2) as k2. intros k2 k1. revert trs.
  induction k1 as [|x k1 IH]; intros trs; cbn [app mapM].
  - intros Htrs. exists [], trs. by rewrite Htrs.
  - destruct (listing1 x) as [t|]; cbn; [|done].
    destruct (mapM listing1 (k1 ++ k2)) as [ts|] eqn:Hts; cbn; [|done].
    intros Htrs. injection Htrs as <-.
    destruct (IH ts eq_refl) as (ts1 & ts2 & H1 & H2 & Hcat).
    exists (t :: ts1), ts2. rewrite H1, H2. cbn. rewrite Hcat.
    by rewrite (assoc_L (++)).
Qed.

Lemma append_lock (a child : addr) (h h' : Store) :
  Node.append a child h = Some h' →
  ∃ o, lock h a = Some o ∧
       lock h' a = Some {| kind := kind o; children_ := children_ o ++ [child] |}.
Proof.
  unfold Node.append. destruct (lock h a) as [o|]; [|done]. intros Hh'. simplify_eq.
  exists o. split; [done|]. rewrite lock_insert. by rewrite decide_True.
Qed.

(** ** Depth along the traversal path *)

Lemma enters_depth (h : Store) (a b : addr) (v vb : Visitor.t) (path : list addr) :
  enters h a v path b vb →
  (Visitor.depth v < Visitor.SIZE_MOD)%N →
  Visitor.depth vb =
  ((Visitor.depth v + N.of_nat (length path)) mod Visitor.SIZE_MOD)%N.
Proof.
  induction 1 as [a v|a v o fuel before child after v1 path b vb Ha Hch Hlive Hloop _ IH];
    intros Hd.
  - cbn. rewrite N.add_0_r. by rewrite N.mod_small.
  - assert (Hstart : Visitor.depth (Visitor.incr (own_render o v)) =
                     ((Visitor.depth v + 1) mod Visitor.SIZE_MOD)%N)
      by (by rewrite own_render_text).
    apply for_children_depth in Hloop; [|rewrite Hstart; apply next_depth_lt].
    rewrite IH by (rewrite Hloop, Hstart; apply next_depth_lt).
    rewrite Hloop, Hstart. rewrite N.Div0.add_mod_idemp_l. f_equal. cbn [length]. lia.
Qed.

(** ** More fuel changes nothing *)

Lemma listing_mono (h : Store) (fuel fuel' : nat) (d : N) (a : addr)
    (t : list (addr * N)) :
  listing fuel h d a = Some t → fuel ≤ fuel' → listing fuel' h d a = Some t.
Proof.
  revert fuel' d a t. induction fuel as [|fuel IH]; intros fuel' d a t; [done|].
  intros Ht Hle. destruct fuel' as [|fuel']; [lia|]. cbn [listing] in *.
  destruct (lock h a) as [o|]; [|done]. cbn [mbind option_bind] in *.
  destruct (mapM (listing fuel h _) _) as [trs|] eqn:Htrs; [|done].
  apply mapM_Some in Htrs.
  assert (Htrs' : mapM (listing fuel' h ((d + 1) mod Visitor.SIZE_MOD)%N)
                    (filter (λ c, is_Some (lock h c)) (children_ o)) = Some trs).
  { apply mapM_Some. eapply Forall2_impl; [exact Htrs|].
    intros c tc Hc. cbn in Hc. apply IH; [done|lia]. }
  by rewrite Htrs'.
Qed.

Lemma visit_mono (h : Store) (fuel fuel' : nat) (a : addr) (v v' : Visitor.t) :
  (Visitor.depth v < Visitor.SIZE_MOD)%N →
  visit fuel h a v = Some v' → fuel ≤ fuel' → visit fuel' h a v = Some v'.
Proof.
  intros Hd. rewrite !visit_listing by done.
  destruct (listing fuel h _ a) as [t|] eqn:Ht; [|done]. intros Hv Hle.
  by rewrite (listing_mono h fuel fuel' _ a t Ht Hle).
Qed.

Lemma for_children_mono (h : Store) (fuel fuel' : nat) (children : NodeList)
    (v v' : Visitor.t) :
  (Visitor.depth v < Visitor.SIZE_MOD)%N →
  Node.for_children h (visit fuel h) children v = Some v' → fuel ≤ fuel' →
  Node.for_children h (visit fuel' h) children v = Some v'.
Proof.
  revert v. induction children as [|c rest IH]; intros v Hd; [done|].
  cbn [Node.for_children]. destruct (lock h c); [|by apply IH].
  destruct (visit fuel h c v) as [v1|] eqn:Hv1; [|done]. cbn. intros Hrest Hle.
  rewrite (visit_mono h fuel fuel' c v v1 Hd Hv1 Hle). cbn.
  apply IH; [|done|done]. by rewrite (visit_depth _ _ _ _ _ Hd Hv1).
Qed.

Lemma for_children_app (h : Store) (visit1 : addr → Visitor.t → option Visitor.t)
    (l1 l2 : NodeList) (v : Visitor.t) :
  Node.for_children h visit1 (l1 ++ l2) v =
  v1 ← Node.for_children h visit1 l1 v; Node.for_children h visit1 l2 v1.
Proof.
  revert v. induction l1 as [|c rest IH]; intros v; [done|].
  cbn [app Node.for_children]. destruct (lock h c); [|apply IH].
  destruct (visit1 c v); cbn; [apply IH|done].
Qed.

(** ** What has been written stays *)

Lemma visit_output (fuel : nat) (h : Store) (a : addr) (v v' : Visitor.t) :
  (Visitor.depth v < Visitor.SIZE_MOD)%N →
  visit fuel h a v = Some v' →
  ∃ o w, lock h a = Some o ∧
         Visitor.output v' = Visitor.output (own_render o v) +:+ w.
Proof.
  intros Hd. rewrite visit_listing by done.
  destruct (listing fuel h _ a) as [t|] eqn:Ht; [|done]. cbn. intros Hv. simplify_eq.
  destruct (listing_head _ _ _ _ _ Ht) as [rest ->].
  destruct fuel as [|fuel]; [done|]. cbn [listing] in Ht.
  destruct (lock h a) as [o|] eqn:Ha; [|done].
  exists o, (texts h rest). split; [done|]. rewrite own_render_text. cbn.
  unfold texts. cbn [fmap list_fmap cat]. unfold text at 1. cbn [fst snd].
  by rewrite Ha, app_assoc.
Qed.

Lemma for_children_output (fuel : nat) (h : Store) (children : NodeList) (v v' : Visitor.t) :
  (Visitor.depth v < Visitor.SIZE_MOD)%N →
  Node.for_children h (visit fuel h) children v = Some v' →
  ∃ w, Visitor.output v' = Visitor.output v +:+ w.
Proof.
  intros Hd.
  rewrite (for_children_listing h (visit fuel h) (listing fuel h (Visitor.depth v))
             (Visitor.depth v)); [| |done].
  - destruct (mapM _ _) as [trs|]; [|done]. cbn. intros Hv. simplify_eq. by eexists.
  - intros c vc Hvc. rewrite visit_listing by (by rewrite Hvc). by rewrite Hvc.
Qed.

Lemma enters_output (h : Store) (a b : addr) (v vb : Visitor.t) (path : list addr) :
  enters h a v path b vb →
  ∀ fuel v',
    (Visitor.depth v < Visitor.SIZE_MOD)%N →
    visit fuel h a v = Some v' →
    ∃ ob w, lock h b = Some ob ∧
            Visitor.output v' = Visitor.output (own_render ob vb) +:+ w.
Proof.
  induction 1 as [a v|a v o fuel0 before child after v1 path b vb Ha Hch Hlive Hloop _ IH];
    intros fuel v' Hd Hv.
  - by eapply visit_output.
  - destruct fuel as [|fuel]; [done|]. cbn [visit] in Hv. rewrite Ha in Hv.
    rewrite virtual_visit_own in Hv. unfold Node.visit in Hv.
    destruct (Node.for_children h (visit fuel h) (children_ o) _) as [vend|] eqn:Hall;
      [|done].
    cbn in Hv. simplify_eq. rewrite Hch, for_children_app in Hall.
    assert (Hstart : (Visitor.depth (Visitor.incr (own_render o v)) < Visitor.SIZE_MOD)%N)
      by (rewrite own_render_text; apply next_depth_lt).
    destruct (Node.for_children h (visit fuel h) before _) as [v2|] eqn:Hbefore; [|done].
    cbn in Hall.
    assert (v2 = v1) as ->.
    { apply (for_children_mono h fuel (max fuel fuel0)) in Hbefore; [|done|lia].
      apply (for_children_mono h fuel0 (max fuel fuel0)) in Hloop; [|done|lia].
      congruence. }
    assert (Hd1 : (Visitor.depth v1 < Visitor.SIZE_MOD)%N)
      by (by rewrite (for_children_depth _ _ _ _ _ Hstart Hloop)).
    cbn [Node.for_children] in Hall. destruct Hlive as [oc Hoc]. rewrite Hoc in Hall.
    destruct (visit fuel h child v1) as [v3|] eqn:Hv3; [|done]. cbn in Hall.
    destruct (IH fuel v3 Hd1 Hv3) as (ob & w & Hb & Hout).
    assert (Hd3 : (Visitor.depth v3 < Visitor.SIZE_MOD)%N)
      by (by rewrite (visit_depth _ _ _ _ _ Hd1 Hv3)).
    destruct (for_children_output _ _ _ _ _ Hd3 Hall) as [w' Hout'].
    exists ob, (w +:+ w'). split; [done|]. cbn. by rewrite Hout', Hout, app_assoc.
Qed.

(** C4: take any node [b] that the traversal of [Root::visit] enters,
    along a path of [length path] child references from the root, with the
    visitor in state [vb].  The visitor's depth is then the number of edges
    of the path (a direct child of the root is at depth 1).  A storage node
    writes, after what is already in the sink, [length path - 1] indent
    units, the leaf marker, its value and a newline; and that text is in
    the report that [Root::visit] returns, where [vb] left off. *)
Theorem depth_is_edge_count (h : Store) (r b : addr) (cout : ostream)
    (path : list addr) (ob : Object) (vb : Visitor.t) :
  enters h r (Visitor.ctor cout) path b vb →
  lock h b = Some ob →
  (N.of_nat (length path) < Visitor.SIZE_MOD)%N →
  Visitor.depth vb = N.of_nat (length path) ∧
  (∀ f, kind ob = KStorage f ∨ kind ob = KAtomicStorage f →
     own_render ob vb =
     Visitor.mk (Visitor.depth vb)
       (Visitor.output vb +:+ indent (length path - 1) +:+ " - " +:+
        rendered (Field.content f) +:+ nl)) ∧
  (∀ fuel report,
     Root.visit fuel h r cout = Some report →
     ∃ rest, report = Visitor.output (own_render ob vb) +:+ rest).
Proof.
  intros Henters Hb Hlen.
  assert (Hd0 : (Visitor.depth (Visitor.ctor cout) < Visitor.SIZE_MOD)%N)
    by (cbn; unfold Visitor.SIZE_MOD; lia).
  assert (Hdepth : Visitor.depth vb = N.of_nat (length path)).
  { rewrite (enters_depth _ _ _ _ _ _ Henters Hd0). cbn [Visitor.ctor Visitor.header Visitor.depth].
    rewrite N.add_0_l. by apply N.mod_small. }
  split; [done|]. split.
  - intros f Hf. rewrite own_render_text, Hdepth.
    replace (N.to_nat (N.of_nat (length path) - 1)) with (length path - 1) by lia.
    destruct Hf as [Hf|Hf]; rewrite Hf; cbn [own_text]; unfold line;
      by replace (N.to_nat (N.of_nat (length path) - 1)) with (length path - 1) by lia.
  - intros fuel report. unfold Root.visit.
    destruct (lock h r) as [[[| | |] chr]|]; try done.
    destruct (visit fuel h r (Visitor.ctor cout)) as [v'|] eqn:Hv; [|done]. cbn.
    intros Hrep. simplify_eq.
    destruct (enters_output _ _ _ _ _ _ Henters fuel v' Hd0 Hv) as (ob' & w & Hb' & Hout).
    rewrite Hb in Hb'. simplify_eq.
    exists (w +:+ tail_text). unfold Visitor.dtor, Visitor.tail, endl, tail_text. cbn.
    by rewrite Hout, !app_assoc.
Qed.

Lemma depth_is_edge_count_witness :
  Visitor.depth (Visitor.mk 2 (header_text +:+ " - hello" +:+ nl)) = N.of_nat 2 ∧
  (∀ f, KAtomicStorage (Field.mk (CSize 2)) = KStorage f ∨
        KAtomicStorage (Field.mk (CSize 2)) = KAtomicStorage f →
     own_render {| kind := KAtomicStorage (Field.mk (CSize 2)); children_ := [] |}
       (Visitor.mk 2 (header_text +:+ " - hello" +:+ nl)) =
     Visitor.mk 2
       ((header_text +:+ " - hello" +:+ nl) +:+ indent (2 - 1) +:+ " - " +:+
        rendered (Field.content f) +:+ nl)) ∧
  (∀ fuel report,
     Root.visit fuel store_B root0 "" = Some report →
     ∃ rest,
       report =
       Visitor.output
         (own_render {| kind := KAtomicStorage (Field.mk (CSize 2)); children_ := [] |}
            (Visitor.mk 2 (header_text +:+ " - hello" +:+ nl))) +:+ rest).
Proof.
  apply (depth_is_edge_count store_B root0 metric2 "" [metric; metric2]
           {| kind := KAtomicStorage (Field.mk (CSize 2)); children_ := [] |}
           (Visitor.mk 2 (header_text +:+ " - hello" +:+ nl))).
  - eapply (enters_child store_B root0 _ {| kind := KRoot; children_ := [metric] |}
              0 [] metric []).
    + by_evaluation.
    + reflexivity.
    + eexists. by_evaluation.
    + reflexivity.
    + eapply (enters_child store_B metric _
                {| kind := KAtomicStorage (Field.mk (CString "hello"));
                   children_ := [metric2] |} 0 [] metric2 []).
      * by_evaluation.
      * reflexivity.
      * eexists. by_evaluation.
      * reflexivity.
      * apply enters_here.
  - by_evaluation.
  - by_evaluation.
Defined.

(** Every listed node is entered along some path, at the listed depth: the
    calls that [enters] describes are all the calls of a traversal. *)
Lemma listed_enters (fuel : nat) (h : Store) (a b : addr) (v : Visitor.t)
    (tr : list (addr * N)) (d' : N) :
  (Visitor.depth v < Visitor.SIZE_MOD)%N →
  listing fuel h (Visitor.depth v) a = Some tr →
  (b, d') ∈ tr →
  ∃ path vb, enters h a v path b vb ∧ Visitor.depth vb = d'.
Proof.
  revert a v tr. induction fuel as [|fuel IH]; intros a v tr Hd; [done|].
  cbn [listing]. destruct (lock h a) as [o|] eqn:Ha; [|done]. cbn [mbind option_bind].
  destruct (mapM _ _) as [trs|] eqn:Htrs; [|done]. cbn. intros Htr Hb. simplify_eq.
  apply elem_of_cons in Hb as [Hb|Hb].
  { simplify_eq. exists [], v. split; [constructor|done]. }
  apply (mapM_concat_elem _ _ _ _ Htrs) in Hb as (c & t & Hc & Ht & Hb).
  apply list_elem_of_filter in Hc as [Hlive Hc].
  apply list_elem_of_split in Hc as (before & after & Hsplit).
  rewrite Hsplit in Htrs.
  destruct (listing_children_app h _ before (c :: after) trs Htrs)
    as (ts1 & ts2 & H1 & _ & _).
  assert (Hstart : Visitor.depth (Visitor.incr (own_render o v)) =
                   ((Visitor.depth v + 1) mod Visitor.SIZE_MOD)%N)
    by (by rewrite own_render_text).
  assert (Hrec : ∀ x w,
            Visitor.depth w = ((Visitor.depth v + 1) mod Visitor.SIZE_MOD)%N →
            visit fuel h x w =
            tr ← listing fuel h ((Visitor.depth v + 1) mod Visitor.SIZE_MOD)%N x;
            Some (Visitor.mk ((Visitor.depth v + 1) mod Visitor.SIZE_MOD)%N
                    (Visitor.output w +:+ texts h tr))).
  { intros x w Hw. rewrite visit_listing by (rewrite Hw; apply next_depth_lt).
    by rewrite Hw. }
  pose proof (for_children_listing h (visit fuel h) _ _ before Hrec
                (Visitor.incr (own_render o v)) Hstart) as Hloop.
  rewrite H1 in Hloop. cbn in Hloop.
  set (v1 := Visitor.mk ((Visitor.depth v + 1) mod Visitor.SIZE_MOD)%N
               (Visitor.output (Visitor.incr (own_render o v)) +:+ texts h (concat ts1))) in *.
  destruct (IH c v1 t (next_depth_lt _) Ht Hb) as (path & vb & Henters & Hvb).
  exists (c :: path), vb. split; [|done].
  by eapply (enters_child h a v o fuel before c after v1).
Qed.

(** * Further properties of the code *)

(** ** A report depends on the listed nodes only *)

Lemma filter_iff_in {A : Type} (P Q : A → Prop) `{∀ x, Decision (P x)}
    `{∀ x, Decision (Q x)} (l : list A) :
  (∀ x, x ∈ l → P x ↔ Q x) → filter P l = filter Q l.
Proof.
  induction l as [|x l IH]; intros Hiff; [done|].
  rewrite !filter_cons. rewrite IH by (intros y Hy; apply Hiff; by right).
  destruct (decide (P x)) as [HP|HP], (decide (Q x)) as [HQ|HQ]; try done.
  - destruct HQ. apply (Hiff x); [by left|done].
  - destruct HP. apply (Hiff x); [by left|done].
Qed.

Lemma mapM_ext_in {A B : Type} (f g : A → option B) (l : list A) (k : list B) :
  mapM f l = Some k →
  (∀ x y, x ∈ l → y ∈ k → f x = Some y → g x = Some y) →
  mapM g l = Some k.
Proof.
  revert k. induction l as [|x l IH]; intros k; cbn [mapM]; [done|].
  destruct (f x) as [y|] eqn:Hfx; cbn; [|done].
  destruct (mapM f l) as [ys|] eqn:Hl; cbn; [|done].
  intros Hk Hfg. injection Hk as <-.
  rewrite (Hfg x y) by (done || by left). cbn.
  rewrite (IH ys eq_refl); [done|].
  intros x' y' Hx' Hy'. apply Hfg; by right.
Qed.

Lemma elem_of_concat_intro {A : Type} (t : list A) (ts : list (list A)) (e : A) :
  t ∈ ts → e ∈ t → e ∈ concat ts.
Proof.
  induction 1 as [t ts|t t' ts _ IH]; intros He; cbn [concat]; apply elem_of_app; auto.
Qed.

Lemma listing_agree (h h' : Store) (n : nat) (d : N) (x : addr) (t : list (addr * N)) :
  listing n h d x = Some t →
  (∀ b d', (b, d') ∈ t → lock h' b = lock h b) →
  (∀ b d' o y, (b, d') ∈ t → lock h b = Some o → y ∈ children_ o →
     lock h y = None → lock h' y = None) →
  listing n h' d x = Some t.
Proof.
  revert d x t. induction n as [|n IH]; intros d x t; [done|].
  cbn [listing]. destruct (lock h x) as [o|] eqn:Hx; [|done]. cbn [mbind option_bind].
  destruct (mapM _ _) as [trs|] eqn:Htrs; [|done]. cbn. intros Ht Hsame Hdead.
  injection Ht as <-.
  rewrite (Hsame x d) by (by left). rewrite Hx. cbn [mbind option_bind].
  assert (Hlisted : ∀ y ty, y ∈ filter (λ c, is_Some (lock h c)) (children_ o) →
            listing n h ((d + 1) mod Visitor.SIZE_MOD)%N y = Some ty → ty ∈ trs →
            ∀ e, e ∈ ty → e ∈ (x, d) :: concat trs).
  { intros y ty _ _ Hty e He. right. by eapply elem_of_concat_intro. }
  rewrite <- (filter_iff_in (λ c, is_Some (lock h c)) (λ c, is_Some (lock h' c))).
  - rewrite (mapM_ext_in _ (listing n h' ((d + 1) mod Visitor.SIZE_MOD)%N) _ trs Htrs);
      [done|].
    intros y ty Hy Hty Hly. apply IH; [done| |].
    + intros b d' Hb. apply (Hsame b d'). by eapply Hlisted.
    + intros b d' ob z Hb. apply (Hdead b d' ob z). by eapply Hlisted.
  - intros y Hy. destruct (lock h y) as [oy|] eqn:Hly.
    + assert (Hyf : y ∈ filter (λ c, is_Some (lock h c)) (children_ o))
        by (apply list_elem_of_filter; split; [rewrite Hly; by eexists|done]).
      pose proof (proj1 (mapM_is_Some _ _) (mk_is_Some _ _ Htrs)) as Hall.
      rewrite Forall_forall in Hall. destruct (Hall y Hyf) as [ty Hty].
      destruct (listing_head _ _ _ _ _ Hty) as [rest ->].
      assert (Hin : (y, ((d + 1) mod Visitor.SIZE_MOD)%N) ∈ (x, d) :: concat trs).
      { right. apply (mapM_concat_elem _ _ _ _ Htrs). eexists y, _.
        split; [done|]. split; [done|]. by left. }
      rewrite (Hsame _ _ Hin), Hly. done.
    + rewrite (Hdead x d o y) by (done || by left). done.
Qed.

Lemma texts_agree (h h' : Store) (t : list (addr * N)) :
  (∀ b d', (b, d') ∈ t → kind <$> lock h' b = kind <$> lock h b) →
  texts h' t = texts h t.
Proof.
  unfold texts. induction t as [|[b d'] t IH]; intros Hsame; [done|].
  cbn [fmap list_fmap cat].
  rewrite <- IH by (intros b0 d0 Hb0; apply (Hsame b0 d0); by right). f_equal.
  unfold text. cbn [fst snd]. specialize (Hsame b d' ltac:(by left)).
  destruct (lock h' b), (lock h b); cbn in Hsame; try done.
  injection Hsame as Hk. by rewrite Hk.
Qed.

Lemma reach_target_live (h : Store) (a b : addr) : reach h a b → is_Some (lock h b).
Proof. induction 1; done. Qed.

Lemma Root_visit_Some (fuel : nat) (h : Store) (r : addr) (cout report : ostream) :
  Root.visit fuel h r cout = Some report →
  ∃ o, lock h r = Some o ∧ kind o = KRoot.
Proof.
  unfold Root.visit. destruct (lock h r) as [[[| | |] ch]|]; try done.
  intros _. by eexists.
Qed.

Lemma Root_visit_agree (fuel : nat) (h h' : Store) (r : addr) (o : Object)
    (cout : ostream) (tr : list (addr * N)) :
  lock h r = Some o → kind o = KRoot →
  listing fuel h 0 r = Some tr →
  (∀ b d, (b, d) ∈ tr → lock h' b = lock h b) →
  (∀ b d ob y, (b, d) ∈ tr → lock h b = Some ob → y ∈ children_ ob →
     lock h y = None → lock h' y = None) →
  Root.visit fuel h' r cout = Root.visit fuel h r cout.
Proof.
  intros Hr Hk Htr Hsame Hdead.
  destruct (listing_head _ _ _ _ _ Htr) as [rest Hrest].
  assert (Hr' : lock h' r = Some o).
  { rewrite (Hsame r 0%N); [done|]. rewrite Hrest. by left. }
  rewrite (Root_visit_listing fuel h r o), (Root_visit_listing fuel h' r o) by done.
  rewrite (listing_agree h h' fuel 0 r tr Htr Hsame Hdead), Htr. cbn.
  rewrite (texts_agree h h' tr); [done|].
  intros b d' Hb. by rewrite (Hsame b d').
Qed.

(** X1: the report of [Root::visit] is decided by the nodes the root
    reaches.  A store that holds the same objects at those nodes, and in
    which the references of theirs that did not resolve still do not,
    gives the same bytes. *)
Theorem Root_visit_frame (fuel : nat) (h h' : Store) (r : addr) (cout report : ostream) :
  Root.visit fuel h r cout = Some report →
  (∀ b, reach h r b → lock h' b = lock h b) →
  (∀ b o y, reach h r b → lock h b = Some o → y ∈ children_ o →
     lock h y = None → lock h' y = None) →
  Root.visit fuel h' r cout = Some report.
Proof.
  intros Hvisit Hsame Hdead.
  destruct (Root_visit_Some _ _ _ _ _ Hvisit) as (o & Hr & Hk).
  pose proof Hvisit as Hlisting.
  rewrite (Root_visit_listing fuel h r o) in Hlisting by done.
  destruct (listing fuel h 0 r) as [tr|] eqn:Htr; [|done].
  rewrite <- Hvisit. apply (Root_visit_agree fuel h h' r o cout tr Hr Hk Htr).
  - intros b d Hb. apply Hsame. by eapply listing_reach.
  - intros b d ob y Hb. apply Hdead. by eapply listing_reach.
Qed.

Lemma detached_unreachable : ¬ reach store_C root0 detached.
Proof.
  intros Hreach.
  destruct (reach_listing _ _ _ Hreach 3 0%N
              [(root0, 0%N); (metric, 1%N); (metric2, 2%N)] ltac:(by_evaluation))
    as [d' Hin].
  repeat (apply elem_of_cons in Hin as [Hin|Hin]; [discriminate|]).
  by apply elem_of_nil in Hin.
Qed.

Lemma Root_visit_frame_witness :
  Root.visit 3 (release detached store_C) root0 "" =
  Some (header_text +:+ " - hello" +:+ nl +:+ "   - 2" +:+ nl +:+ tail_text).
Proof.
  apply (Root_visit_frame 3 store_C (release detached store_C) root0 "").
  - by_evaluation.
  - intros b Hb. apply lock_release_ne. intros <-. by apply detached_unreachable.
  - intros b o y _ _ _ Hy. destruct (decide (detached = y)) as [<-|Hne].
    + apply lock_release.
    + by rewrite lock_release_ne.
Defined.

Lemma append_lock_all (a child : addr) (h h' : Store) :
  Node.append a child h = Some h' →
  ∃ o, lock h a = Some o ∧
       ∀ x, lock h' x =
            if decide (a = x)
            then Some {| kind := kind o; children_ := children_ o ++ [child] |}
            else lock h x.
Proof.
  unfold Node.append. destruct (lock h a) as [o|]; [|done]. intros Hh'. simplify_eq.
  exists o. split; [done|]. intros x. apply lock_insert.
Qed.

(** X2: what happens to a node the root does not reach does not show in
    the report.  A [commit] on it, an [append] to it and its destruction
    each leave the bytes that [Root::visit] writes as they were. *)
Theorem unreached_node_keeps_report (fuel : nat) (h : Store) (r a : addr)
    (cout report : ostream) :
  Root.visit fuel h r cout = Some report →
  ¬ reach h r a →
  (∀ newValue h',
     AtomicStorage.commit a newValue h = Some h' ∨ Storage.commit a newValue h = Some h' →
     Root.visit fuel h' r cout = Some report) ∧
  (∀ child h',
     Node.append a child h = Some h' → Root.visit fuel h' r cout = Some report) ∧
  Root.visit fuel (release a h) r cout = Some report.
Proof.
  intros Hvisit Hunreached.
  destruct (Root_visit_Some _ _ _ _ _ Hvisit) as (o & Hr & Hk).
  pose proof Hvisit as Hlisting.
  rewrite (Root_visit_listing fuel h r o) in Hlisting by done.
  destruct (listing fuel h 0 r) as [tr|] eqn:Htr; [|done]. clear Hlisting.
  assert (Hlisted : ∀ b d, (b, d) ∈ tr → b ≠ a).
  { intros b d Hb ->. apply Hunreached. by eapply listing_reach. }
  assert (Hupdate : ∀ h' oa,
            is_Some (lock h a) →
            (∀ x, lock h' x = if decide (a = x) then Some oa else lock h x) →
            Root.visit fuel h' r cout = Some report).
  { intros h' oa Ha Hh'. rewrite <- Hvisit.
    apply (Root_visit_agree fuel h h' r o cout tr Hr Hk Htr).
    - intros b d Hb. rewrite Hh'. rewrite decide_False; [done|].
      intros Hab. by apply (Hlisted b d).
    - intros b d ob y _ _ _ Hy. rewrite Hh'. case_decide; [|done]. subst y.
      rewrite Hy in Ha. by destruct Ha. }
  split; [|split].
  - intros newValue h' [Hc|Hc].
    + destruct (AtomicStorage_commit_lock a newValue h h' Hc) as (f & ch & Ha & Hh').
      eapply Hupdate; [by eexists|exact Hh'].
    + destruct (Storage_commit_lock a newValue h h' Hc) as (f & ch & Ha & Hh').
      eapply Hupdate; [by eexists|exact Hh'].
  - intros child h' Happend.
    destruct (append_lock_all a child h h' Happend) as (oa & Ha & Hh').
    eapply Hupdate; [by eexists|exact Hh'].
  - rewrite <- Hvisit.
    apply (Root_visit_agree fuel h (release a h) r o cout tr Hr Hk Htr).
    + intros b d Hb. apply lock_release_ne. intros Hab. by apply (Hlisted b d).
    + intros b d ob y _ _ _ Hy. destruct (decide (a = y)) as [<-|Hne].
      * apply lock_release.
      * by rewrite lock_release_ne.
Qed.

Lemma unreached_node_keeps_report_witness :
  ∃ h',
    AtomicStorage.commit detached (Field.mk (CSize 8)) store_C = Some h' ∧
    Root.visit 3 h' root0 "" = Root.visit 3 store_C root0 "" ∧
    Root.visit 3 store_C root0 "" =
      Some (header_text +:+ " - hello" +:+ nl +:+ "   - 2" +:+ nl +:+ tail_text).
Proof.
  destruct (unreached_node_keeps_report 3 store_C root0 detached ""
              (header_text +:+ " - hello" +:+ nl +:+ "   - 2" +:+ nl +:+ tail_text))
    as (Hcommit & _ & _).
  - by_evaluation.
  - exact detached_unreachable.
  - eexists. split; [reflexivity|]. split; [|by_evaluation].
    rewrite (Hcommit (Field.mk (CSize 8)) _ (or_introl eq_refl)). by_evaluation.
Defined.

Lemma lock_release_Some (c a : addr) (h : Store) (o : Object) :
  lock (release c h) a = Some o → a ≠ c ∧ lock h a = Some o.
Proof.
  destruct (decide (c = a)) as [<-|Hne].
  - by rewrite lock_release.
  - by rewrite lock_release_ne.
Qed.

Lemma lock_release_live (c y : addr) (h : Store) :
  is_Some (lock (release c h) y) ↔ is_Some (lock h y) ∧ y ≠ c.
Proof.
  destruct (decide (c = y)) as [<-|Hne].
  - rewrite lock_release. split; [by intros [? ?]|]. by intros [_ ?].
  - rewrite lock_release_ne by done. split; [|by intros [? _]]. intros ?. by split.
Qed.

Lemma listing_children_release (c : addr) (h : Store)
    (f f' : addr → option (list (addr * N))) (l : NodeList) (trs : list (list (addr * N))) :
  (∀ y t, f y = Some t → y ≠ c →
     ∃ t', f' y = Some t' ∧ sublist t' t ∧ ∀ e, e ∈ t' → e.1 ≠ c) →
  mapM f (filter (λ y, is_Some (lock h y)) l) = Some trs →
  ∃ trs',
    mapM f' (filter (λ y, is_Some (lock (release c h) y)) l) = Some trs' ∧
    sublist (concat trs') (concat trs) ∧
    ∀ e, e ∈ concat trs' → e.1 ≠ c.
Proof.
  intros Hrec. revert trs. induction l as [|y l IH]; intros trs.
  - cbn. intros Htrs. injection Htrs as <-. exists []. split; [done|].
    split; [done|]. by intros e ?%elem_of_nil.
  - rewrite !filter_cons. destruct (decide (is_Some (lock h y))) as [Hy|Hy].
    + cbn [mapM]. destruct (f y) as [t|] eqn:Hfy; cbn; [|done].
      destruct (mapM f _) as [ts|] eqn:Hts; cbn; [|done].
      intros Htrs. injection Htrs as <-.
      destruct (IH ts eq_refl) as (ts' & Hts' & Hsub & Hne).
      destruct (decide (is_Some (lock (release c h) y))) as [Hy'|Hy'].
      * apply lock_release_live in Hy' as [_ Hyc].
        destruct (Hrec y t Hfy Hyc) as (t' & Hfy' & Hsubt & Hnet).
        exists (t' :: ts'). cbn [mapM]. rewrite Hfy'. cbn. rewrite Hts'. cbn.
        split; [done|]. split; [by apply sublist_app|].
        intros e [He|He]%elem_of_app; auto.
      * exists ts'. split; [done|]. split; [|done]. cbn [concat].
        by apply sublist_inserts_l.
    + intros Htrs. destruct (decide (is_Some (lock (release c h) y))) as [Hy'|Hy'].
      * apply lock_release_live in Hy' as [Hy' _]. done.
      * by apply IH.
Qed.

Lemma listing_release (c : addr) (h : Store) (n : nat) (d : N) (x : addr)
    (t : list (addr * N)) :
  listing n h d x = Some t → x ≠ c →
  ∃ t', listing n (release c h) d x = Some t' ∧ sublist t' t ∧ ∀ e, e ∈ t' → e.1 ≠ c.
Proof.
  revert d x t. induction n as [|n IH]; intros d x t; [done|].
  cbn [listing]. destruct (lock h x) as [o|] eqn:Hx; [|done]. cbn [mbind option_bind].
  destruct (mapM _ _) as [trs|] eqn:Htrs; [|done]. cbn. intros Ht Hxc.
  injection Ht as <-. rewrite lock_release_ne by done. rewrite Hx.
  cbn [mbind option_bind].
  destruct (listing_children_release c h _
              (listing n (release c h) ((d + 1) mod Visitor.SIZE_MOD)%N)
              (children_ o) trs (IH _) Htrs) as (trs' & Htrs' & Hsub & Hne).
  rewrite Htrs'. cbn. eexists. split; [done|]. split; [by apply sublist_skip|].
  intros e [->|He]%elem_of_cons; [done|]. by apply Hne.
Qed.

(** X3: destroying a node only takes lines out of the report.  After the
    release of a node other than the root, [Root::visit] returns whenever it
    did before; the entries of the new report are a subsequence of the
    entries of the old one, each with the text it had, and none of them is
    the destroyed node. *)
Theorem release_removes_lines (fuel : nat) (h : Store) (c r : addr)
    (cout report : ostream) :
  Root.visit fuel h r cout = Some report →
  r ≠ c →
  ∃ tr tr',
    report = cout +:+ header_text +:+ cat (text h <$> tr) +:+ tail_text ∧
    Root.visit fuel (release c h) r cout =
      Some (cout +:+ header_text +:+ cat (text h <$> tr') +:+ tail_text) ∧
    sublist tr' tr ∧
    ∀ e, e ∈ tr' → e.1 ≠ c.
Proof.
  intros Hvisit Hrc.
  destruct (Root_visit_Some _ _ _ _ _ Hvisit) as (o & Hr & Hk).
  rewrite (Root_visit_listing fuel h r o) in Hvisit by done.
  destruct (listing fuel h 0 r) as [tr|] eqn:Htr; [|done]. cbn in Hvisit.
  destruct (listing_release c h fuel 0 r tr Htr Hrc) as (tr' & Htr' & Hsub & Hne).
  exists tr, tr'. split; [by simplify_eq|]. split; [|done].
  rewrite (Root_visit_listing fuel (release c h) r o);
    [|by rewrite lock_release_ne|done].
  rewrite Htr'. cbn. do 3 f_equal. fold (texts (release c h) tr'). fold (texts h tr').
  f_equal. apply texts_agree. intros b d' Hb.
  rewrite lock_release_ne; [done|]. intros <-. by apply (Hne (c, d')).
Qed.

Lemma release_removes_lines_witness :
  ∃ tr tr',
    header_text +:+ " - hello" +:+ nl +:+ "   - 2" +:+ nl +:+ tail_text =
      "" +:+ header_text +:+ cat (text store_B <$> tr) +:+ tail_text ∧
    Root.visit 3 (release metric2 store_B) root0 "" =
      Some ("" +:+ header_text +:+ cat (text store_B <$> tr') +:+ tail_text) ∧
    sublist tr' tr ∧
    ∀ e, e ∈ tr' → e.1 ≠ metric2.
Proof.
  apply (release_removes_lines 3 store_B metric2 root0 "").
  - by_evaluation.
  - discriminate.
Defined.

(** ** [append] *)

Lemma purge_append (a c : addr) (h h' : Store) :
  Node.append a c h = Some h' → purge c h' = purge c h.
Proof.
  unfold Node.append. destruct (lock h a) as [o|] eqn:Ha; [|done].
  intros Hh'. injection Hh' as <-. apply lock_Some in Ha.
  unfold purge. rewrite fmap_insert. apply insert_id.
  rewrite lookup_fmap, Ha. cbn. do 3 f_equal.
  rewrite filter_app, filter_cons_False by (intros Hn; by apply Hn).
  by rewrite filter_nil, (right_id_L [] (++)).
Qed.

(** X4: appending a reference that no longer resolves changes nothing that
    a traversal does: every [visit], and every report of [Root::visit], is
    what it was before the [append]. *)
Theorem append_expired_reference (h h' : Store) (a c : addr) :
  lock h c = None →
  Node.append a c h = Some h' →
  (∀ fuel x v, visit fuel h' x v = visit fuel h x v) ∧
  (∀ fuel r cout, Root.visit fuel h' r cout = Root.visit fuel h r cout).
Proof.
  intros Hc Happend.
  destruct (append_lock_all a c h h' Happend) as (o & Ha & Hh').
  assert (Hc' : lock h' c = None).
  { rewrite Hh'. case_decide; [|done]. subst c. by rewrite Ha in Hc. }
  assert (Hvisit : ∀ fuel x v, visit fuel h' x v = visit fuel h x v).
  { intros fuel x v. rewrite (visit_purge h' c Hc'), (visit_purge h c Hc).
    by rewrite (purge_append a c h h' Happend). }
  split; [done|]. intros fuel r cout. unfold Root.visit. rewrite Hh', Hvisit.
  case_decide; [|done]. subst r. rewrite Ha. by destruct o as [[| | |] ch].
Qed.

Lemma append_expired_reference_witness :
  ∃ h',
    Node.append root0 metric2 (release metric2 store_B) = Some h' ∧
    Root.visit 3 h' root0 "" = Root.visit 3 (release metric2 store_B) root0 "" ∧
    Root.visit 3 (release metric2 store_B) root0 "" =
      Some (header_text +:+ " - hello" +:+ nl +:+ tail_text).
Proof.
  eexists. split; [reflexivity|]. split; [|by_evaluation].
  apply (proj2 (append_expired_reference (release metric2 store_B) _ root0 metric2
                  (lock_release _ _) eq_refl)).
Defined.

Lemma reach_rank (rk : addr → nat) (h : Store) (x b : addr) :
  Ranked rk h → reach h x b → rk b ≤ rk x.
Proof.
  intros Hrk. induction 1 as [a _|a o child b Ha Hchild Hreach IH]; [done|].
  pose proof (Hrk a o child Ha Hchild (reach_live _ _ _ Hreach)). lia.
Qed.

Lemma append_root_listing (rk : addr → nat) (fuel : nat) (h h' : Store) (r c : addr) :
  Ranked rk h' →
  Node.append r c h = Some h' →
  is_Some (lock h c) →
  rk r < fuel →
  ∃ tr tc,
    listing fuel h 0 r = Some tr ∧
    listing fuel h 1 c = Some tc ∧
    listing fuel h' 0 r = Some (tr ++ tc).
Proof.
  intros Hrk Happend Hc Hfuel.
  destruct (append_lock_all r c h h' Happend) as (o & Hr & Hh').
  assert (Hlive : ∀ y, is_Some (lock h' y) ↔ is_Some (lock h y)).
  { intros y. rewrite Hh'. case_decide; [|done]. subst y. rewrite Hr.
    split; intros _; by eexists. }
  assert (Hr' : lock h' r =
                Some {| kind := kind o; children_ := children_ o ++ [c] |})
    by (rewrite Hh'; by rewrite decide_True).
  assert (Hback : ∀ n y ty,
            y ∈ children_ o ++ [c] → is_Some (lock h' y) →
            listing n h' 1 y = Some ty → listing n h 1 y = Some ty).
  { intros n y ty Hy Hylive Hty. apply (listing_agree h' h n 1 y ty Hty).
    - intros b d' Hb. rewrite Hh'. case_decide; [|done]. subst b. exfalso.
      pose proof (reach_rank rk h' y r Hrk (listing_reach _ _ _ _ _ _ _ Hty Hb)).
      pose proof (Hrk r _ y Hr' Hy Hylive). lia.
    - intros b d' ob z _ _ _ Hz. destruct (lock h z) as [oz|] eqn:Hhz; [|done].
      destruct (proj2 (Hlive z)) as [? Hz']; [by eexists|]. by rewrite Hz in Hz'. }
  destruct fuel as [|n]; [lia|].
  destruct (listing_total rk h' Hrk (S n) 0 r) as [t' Ht']; [by eexists|done|].
  pose proof Ht' as Hunfold. cbn [listing] in Hunfold. rewrite Hr' in Hunfold.
  cbn [mbind option_bind children_] in Hunfold.
  change ((0 + 1) mod Visitor.SIZE_MOD)%N with 1%N in Hunfold.
  destruct (mapM _ _) as [trs|] eqn:Htrs; [|done]. cbn in Hunfold.
  injection Hunfold as <-.
  destruct (listing_children_app h' _ (children_ o) [c] trs Htrs)
    as (ts1 & ts2 & H1 & H2 & Hcat).
  rewrite filter_cons_True in H2 by (by apply Hlive). rewrite filter_nil in H2.
  cbn [mapM] in H2. destruct (listing n h' 1 c) as [tc|] eqn:Htc; [|done].
  cbn in H2. injection H2 as <-. cbn [concat] in Hcat.
  rewrite (right_id_L [] (++)) in Hcat.
  exists ((r, 0%N) :: concat ts1), tc. split; [|split].
  - cbn [listing]. rewrite Hr. cbn [mbind option_bind].
    change ((0 + 1) mod Visitor.SIZE_MOD)%N with 1%N.
    rewrite (list_filter_iff (λ y, is_Some (lock h y)) (λ y, is_Some (lock h' y)))
      by (intros y; symmetry; apply Hlive).
    rewrite (mapM_ext_in _ (listing n h 1) _ ts1 H1); [done|].
    intros y ty [Hylive Hy]%list_elem_of_filter _ Hty.
    apply Hback; [|done|done]. apply elem_of_app. by left.
  - apply (listing_mono h n (S n)); [|lia].
    apply Hback; [|by apply Hlive|done]. apply elem_of_app. right. by left.
  - rewrite Ht'. by rewrite Hcat.
Qed.

Lemma append_same_kind (a c : addr) (h h' : Store) (x : addr) :
  Node.append a c h = Some h' → kind <$> lock h' x = kind <$> lock h x.
Proof.
  intros Happend. destruct (append_lock_all a c h h' Happend) as (o & Ha & Hh').
  rewrite Hh'. case_decide; [|done]. subst x. by rewrite Ha.
Qed.

(** C5: the report of [Root::visit] is the concatenation of what each
    listed node writes, where the listing
    - holds exactly the nodes reachable from the root through references
      that resolve, and so none that only a destroyed object leads to;
    - has a node before what its children contribute, and the contributions
      of a child list [l1 ++ l2] as those of [l1] followed by those of [l2].
    The order of a child list is the order of the appends: [append] on a
    live node succeeds, puts the new reference at the end of that node's
    child list and leaves every other object as it was; and after an
    [append] of a live node to the root, what that node contributes comes
    last in the report body, after everything appended before.  The call
    does return when the live part of the store has no cycle. *)
Theorem Root_visit_renders_reachable (fuel : nat) (h : Store) (r : addr) (o : Object)
    (cout : ostream) :
  lock h r = Some o → kind o = KRoot →
  (∀ report,
     Root.visit fuel h r cout = Some report →
     ∃ tr,
       listing fuel h 0 r = Some tr ∧
       report = cout +:+ header_text +:+ cat (text h <$> tr) +:+ tail_text ∧
       (∀ b, (∃ d, (b, d) ∈ tr) ↔ reach h r b)) ∧
  (∀ rk, ranked rk h = true → rk r < fuel → is_Some (Root.visit fuel h r cout)) ∧
  (∀ n d a oa l1 l2 t,
     lock h a = Some oa → children_ oa = l1 ++ l2 →
     listing (S n) h d a = Some t →
     ∃ ts1 ts2,
       mapM (listing n h ((d + 1) mod Visitor.SIZE_MOD)%N)
         (filter (λ c, is_Some (lock h c)) l1) = Some ts1 ∧
       mapM (listing n h ((d + 1) mod Visitor.SIZE_MOD)%N)
         (filter (λ c, is_Some (lock h c)) l2) = Some ts2 ∧
       t = (a, d) :: concat ts1 ++ concat ts2) ∧
  (∀ a oa child,
     lock h a = Some oa →
     ∃ h',
       Node.append a child h = Some h' ∧
       lock h' a = Some {| kind := kind oa; children_ := children_ oa ++ [child] |} ∧
       ∀ x, x ≠ a → lock h' x = lock h x) ∧
  (∀ rk child h',
     ranked rk h' = true →
     Node.append r child h = Some h' →
     is_Some (lock h child) →
     rk r < fuel →
     ∃ tr tc,
       listing fuel h 0 r = Some tr ∧
       listing fuel h 1 child = Some tc ∧
       Root.visit fuel h r cout =
         Some (cout +:+ header_text +:+ cat (text h <$> tr) +:+ tail_text) ∧
       Root.visit fuel h' r cout =
         Some (cout +:+ header_text +:+
               (cat (text h <$> tr) +:+ cat (text h <$> tc)) +:+ tail_text)).
Proof.
  intros Hr Hk. split; [|split; [|split; [|split]]].
  - intros report. rewrite (Root_visit_listing fuel h r o) by done.
    destruct (listing fuel h 0 r) as [tr|] eqn:Htr; [|done]. cbn. intros Hrep.
    simplify_eq. exists tr. split; [done|]. split; [done|].
    intros b. split.
    + intros [d Hb]. by eapply listing_reach.
    + intros Hreach. by eapply reach_listing.
  - intros rk Hrk Hfuel. by eapply Root_visit_returns.
  - intros n d a oa l1 l2 t Ha Hsplit Ht. cbn [listing] in Ht. rewrite Ha in Ht.
    cbn [mbind option_bind] in Ht. rewrite Hsplit in Ht.
    destruct (mapM _ _) as [trs|] eqn:Htrs; [|done]. cbn in Ht.
    destruct (listing_children_app h _ l1 l2 trs Htrs) as (ts1 & ts2 & H1 & H2 & Hcat).
    exists ts1, ts2. rewrite <- Hcat. split; [done|]. split; [done|]. by simplify_eq.
  - intros a oa child Ha.
    destruct (Node.append a child h) as [h'|] eqn:Happend.
    + destruct (append_lock_all a child h h' Happend) as (oa' & Ha' & Hh').
      rewrite Ha in Ha'. injection Ha' as <-.
      exists h'. split; [done|]. split.
      * rewrite Hh'. by rewrite decide_True.
      * intros x Hx. rewrite Hh'. by rewrite decide_False.
    + unfold Node.append in Happend. by rewrite Ha in Happend.
  - intros rk child h' Hrk Happend Hchild Hfuel.
    destruct (append_root_listing rk fuel h h' r child (ranked_Ranked _ _ Hrk)
                Happend Hchild Hfuel) as (tr & tc & Htr & Htc & Htr').
    exists tr, tc. split; [done|]. split; [done|]. split.
    + rewrite (Root_visit_listing fuel h r o) by done. by rewrite Htr.
    + destruct (append_lock_all r child h h' Happend) as (o' & Hr0 & Hh').
      rewrite Hr in Hr0. injection Hr0 as <-.
      rewrite (Root_visit_listing fuel h' r
                 {| kind := kind o; children_ := children_ o ++ [child] |});
        [|rewrite Hh'; by rewrite decide_True|done].
      rewrite Htr'. cbn.
      rewrite (texts_agree h h' (tr ++ tc))
        by (intros b d' _; by apply (append_same_kind r child)).
      by rewrite texts_app.
Qed.

Lemma Root_visit_renders_reachable_witness :
  ∃ h' report tr tc,
    Node.append root0 detached store_C = Some h' ∧
    lock h' root0 = Some {| kind := KRoot; children_ := [metric; detached] |} ∧
    (∀ x, x ≠ root0 → lock h' x = lock store_C x) ∧
    Root.visit 3 store_C root0 "" = Some report ∧
    listing 3 store_C 0 root0 = Some tr ∧
    report = "" +:+ header_text +:+ cat (text store_C <$> tr) +:+ tail_text ∧
    (∀ b, (∃ d, (b, d) ∈ tr) ↔ reach store_C root0 b) ∧
    (∃ ts1 ts2,
       mapM (listing 2 store_C ((0 + 1) mod Visitor.SIZE_MOD)%N)
         (filter (λ c, is_Some (lock store_C c)) [metric]) = Some ts1 ∧
       mapM (listing 2 store_C ((0 + 1) mod Visitor.SIZE_MOD)%N)
         (filter (λ c, is_Some (lock store_C c)) []) = Some ts2 ∧
       tr = (root0, 0%N) :: concat ts1 ++ concat ts2) ∧
    listing 3 store_C 1 detached = Some tc ∧
    Root.visit 3 h' root0 "" =
      Some ("" +:+ header_text +:+
            (cat (text store_C <$> tr) +:+ cat (text store_C <$> tc)) +:+ tail_text) ∧
    Root.visit 3 h' root0 "" =
      Some (header_text +:+ " - hello" +:+ nl +:+ "   - 2" +:+ nl +:+ " - 7" +:+ nl +:+
            tail_text).
Proof.
  destruct (Root_visit_renders_reachable 3 store_C root0
              {| kind := KRoot; children_ := [metric] |} "")
    as (Hlisted & Hreturns & Horder & Happend & Hlast).
  - by_evaluation.
  - reflexivity.
  - destruct (Hreturns rank_B) as [report Hreport].
    + by_evaluation.
    + cbn. lia.
    + destruct (Hlisted report Hreport) as (tr & Htr & Hrep & Hreach).
      destruct (Happend root0 {| kind := KRoot; children_ := [metric] |} detached)
        as (h' & Happ & Hroot' & Hothers).
      { by_evaluation. }
      assert (Hh' : Node.append root0 detached store_C =
                    Some (<[root0 := Some {| kind := KRoot;
                                             children_ := [metric; detached] |}]> store_C))
        by reflexivity.
      rewrite Hh' in Happ. injection Happ as <-.
      destruct (Hlast rank_B detached
                  (<[root0 := Some {| kind := KRoot;
                                      children_ := [metric; detached] |}]> store_C))
        as (tr0 & tc & Htr0 & Htc & _ & Hnew).
      { by_evaluation. }
      { exact Hh'. }
      { eexists. by_evaluation. }
      { cbn. lia. }
      rewrite Htr in Htr0. injection Htr0 as <-.
      destruct (Horder 2 0%N root0 {| kind := KRoot; children_ := [metric] |}
                  [metric] [] tr ltac:(by_evaluation) eq_refl Htr) as (ts1 & ts2 & Hsplit).
      eexists _, report, tr, tc.
      split; [exact Hh'|]. split; [exact Hroot'|]. split; [exact Hothers|].
      split; [exact Hreport|]. split; [exact Htr|]. split; [exact Hrep|].
      split; [exact Hreach|]. split; [by exists ts1, ts2|]. split; [exact Htc|].
      split; [exact Hnew|]. by_evaluation.
Defined.

(** X5: appending a live node to the root puts what the node and the nodes
    below it write at the end of the report body, one level below the root,
    just before the footer; what was in the report stays as it was.  (The
    store after the [append] has no cycle among its live objects.) *)
Theorem append_to_root_extends_report (rk : addr → nat) (fuel : nat) (h h' : Store)
    (r c : addr) (o : Object) (cout : ostream) :
  ranked rk h' = true →
  lock h r = Some o → kind o = KRoot →
  Node.append r c h = Some h' →
  is_Some (lock h c) →
  rk r < fuel →
  ∃ tr tc,
    listing fuel h 0 r = Some tr ∧
    listing fuel h 1 c = Some tc ∧
    Root.visit fuel h r cout =
      Some (cout +:+ header_text +:+ texts h tr +:+ tail_text) ∧
    Root.visit fuel h' r cout =
      Some (cout +:+ header_text +:+ (texts h tr +:+ texts h tc) +:+ tail_text).
Proof.
  intros Hrk Hr Hk Happend Hc Hfuel.
  destruct (append_root_listing rk fuel h h' r c (ranked_Ranked _ _ Hrk) Happend Hc Hfuel)
    as (tr & tc & Htr & Htc & Htr').
  exists tr, tc. split; [done|]. split; [done|]. split.
  - rewrite (Root_visit_listing fuel h r o) by done. by rewrite Htr.
  - destruct (append_lock_all r c h h' Happend) as (o' & Hr0 & Hh').
    rewrite Hr in Hr0. injection Hr0 as <-.
    rewrite (Root_visit_listing fuel h' r
               {| kind := kind o; children_ := children_ o ++ [c] |});
      [|rewrite Hh'; by rewrite decide_True|done].
    rewrite Htr'. cbn.
    rewrite (texts_agree h h' (tr ++ tc))
      by (intros b d' _; by apply (append_same_kind r c)).
    by rewrite texts_app.
Qed.

Lemma append_to_root_extends_report_witness :
  ∃ h',
    Node.append root0 detached store_C = Some h' ∧
    Root.visit 3 store_C root0 "" =
      Some (header_text +:+ " - hello" +:+ nl +:+ "   - 2" +:+ nl +:+ tail_text) ∧
    Root.visit 3 h' root0 "" =
      Some (header_text +:+ " - hello" +:+ nl +:+ "   - 2" +:+ nl +:+ " - 7" +:+ nl +:+
            tail_text).
Proof.
  destruct (append_to_root_extends_report rank_B 3 store_C
              (<[root0 := Some {| kind := KRoot; children_ := [metric; detached] |}]> store_C)
              root0 detached {| kind := KRoot; children_ := [metric] |} "")
    as (tr & tc & Htr & Htc & Hold & Hnew).
  - by_evaluation.
  - by_evaluation.
  - reflexivity.
  - reflexivity.
  - eexists. by_evaluation.
  - cbn. lia.
  - exists (<[root0 := Some {| kind := KRoot; children_ := [metric; detached] |}]> store_C).
    split; [reflexivity|]. rewrite Hold, Hnew.
    vm_compute in Htr. vm_compute in Htc. injection Htr as <-. injection Htc as <-.
    split; by_evaluation.
Defined.

(** ** [create] *)

Lemma closed_Closed (h : Store) : closed h = true ↔ Closed h.
Proof.
  unfold closed, Closed. rewrite forallb_forall. split.
  - intros Hall a o c Ha Hc. apply lock_Some in Ha.
    specialize (Hall (a, Some o)). cbn in Hall.
    rewrite forallb_forall in Hall.
    assert (Hin : In (a, Some o) (map_to_list h))
      by (apply list_elem_of_In; by apply elem_of_map_to_list).
    specialize (Hall Hin c (proj1 (list_elem_of_In _ _) Hc)).
    by apply bool_decide_eq_true in Hall.
  - intros Hclosed [a [o|]] Hin; [|done]. apply forallb_forall. intros c Hc.
    apply bool_decide_eq_true. apply (Hclosed a o c).
    + apply lock_Some. apply elem_of_map_to_list. by apply list_elem_of_In.
    + by apply list_elem_of_In.
Qed.

Lemma create_lock (T : Root.STORAGE) (h h' : Store) (a : addr) :
  Root.create T h = (a, h') →
  h !! a = None ∧
  h' = <[a := Some {| kind := Root.new_kind T; children_ := [] |}]> h ∧
  ∀ x, lock h' x =
       if decide (a = x) then Some {| kind := Root.new_kind T; children_ := [] |}
       else lock h x.
Proof.
  unfold Root.create. intros Hc. injection Hc as <- <-.
  split; [|split; [done|]].
  - apply not_elem_of_dom. apply is_fresh.
  - intros x. apply lock_insert.
Qed.

Lemma lock_None_of_lookup (h : Store) (a : addr) : h !! a = None → lock h a = None.
Proof. unfold lock. by intros ->. Qed.

Lemma lock_live_lookup (h : Store) (a : addr) : is_Some (lock h a) → is_Some (h !! a).
Proof. unfold lock. destruct (h !! a); [by eexists|]. by intros [? ?]. Qed.

Section Create.

Variables (T : Root.STORAGE) (h h' : Store) (a : addr).
Hypothesis Hclosed : Closed h.
Hypothesis Hcreate : Root.create T h = (a, h').

Lemma create_fresh : h !! a = None.
Proof. by destruct (create_lock T h h' a Hcreate). Qed.

Lemma create_lock_ne (x : addr) : x ≠ a → lock h' x = lock h x.
Proof.
  intros Hx. destruct (create_lock T h h' a Hcreate) as (_ & _ & Hh').
  rewrite Hh'. by rewrite decide_False.
Qed.

Lemma create_lock_new :
  lock h' a = Some {| kind := Root.new_kind T; children_ := [] |}.
Proof.
  destruct (create_lock T h h' a Hcreate) as (_ & _ & Hh').
  rewrite Hh'. by rewrite decide_True.
Qed.

Lemma create_live_ne (x : addr) : is_Some (lock h x) → x ≠ a.
Proof.
  intros Hx ->. apply lock_live_lookup in Hx. rewrite create_fresh in Hx.
  by destruct Hx.
Qed.

Lemma create_child_ne (x y : addr) (o : Object) :
  lock h x = Some o → y ∈ children_ o → y ≠ a.
Proof.
  intros Hx Hy ->. pose proof (Hclosed x o a Hx Hy) as Ha.
  rewrite create_fresh in Ha. by destruct Ha.
Qed.

Lemma create_reach_ne (x b : addr) : x ≠ a → reach h' x b → b ≠ a.
Proof.
  intros Hx Hreach. induction Hreach as [|x o child b Hlx Hchild _ IH]; [done|].
  apply IH. rewrite create_lock_ne in Hlx by done. by eapply create_child_ne.
Qed.

Lemma create_listing (n : nat) (d : N) (x : addr) :
  x ≠ a → listing n h' d x = listing n h d x.
Proof.
  intros Hx.
  destruct (listing n h d x) as [t|] eqn:Ht.
  - apply (listing_agree h h' n d x t Ht).
    + intros b d' Hb. apply create_lock_ne. apply create_live_ne.
      eapply reach_target_live. by eapply listing_reach.
    + intros b d' o y _ Hlb Hy Hdead. rewrite create_lock_ne; [done|].
      by eapply create_child_ne.
  - destruct (listing n h' d x) as [t'|] eqn:Ht'; [|done].
    rewrite <- Ht. symmetry. apply (listing_agree h' h n d x t' Ht').
    + intros b d' Hb. symmetry. apply create_lock_ne.
      eapply create_reach_ne; [done|]. by eapply listing_reach.
    + intros b d' o y _ _ _ Hdead. destruct (decide (y = a)) as [->|Hy].
      * by rewrite create_lock_new in Hdead.
      * by rewrite <- create_lock_ne.
Qed.

Lemma create_texts (n : nat) (d : N) (x : addr) (t : list (addr * N)) :
  listing n h d x = Some t → texts h' t = texts h t.
Proof.
  intros Ht. apply texts_agree. intros b d' Hb. rewrite create_lock_ne; [done|].
  apply create_live_ne. eapply reach_target_live. by eapply listing_reach.
Qed.

Lemma create_Root_visit (fuel : nat) (r : addr) (cout : ostream) :
  Root.visit fuel h' r cout = Root.visit fuel h r cout.
Proof.
  destruct (decide (r = a)) as [->|Hr].
  - unfold Root.visit. rewrite create_lock_new, (lock_None_of_lookup h a create_fresh).
    by destruct T.
  - destruct (lock h r) as [o|] eqn:Hlr.
    + destruct o as [k ch].
      destruct k; try (unfold Root.visit; by rewrite create_lock_ne, Hlr).
      rewrite (Root_visit_listing fuel h' r {| kind := KRoot; children_ := ch |}),
        (Root_visit_listing fuel h r {| kind := KRoot; children_ := ch |});
        [|done|done|by rewrite create_lock_ne|done].
      rewrite create_listing by done.
      destruct (listing fuel h 0 r) as [t|] eqn:Ht; [|done]. cbn.
      by rewrite (create_texts fuel 0 r t Ht).
    + unfold Root.visit. by rewrite create_lock_ne, Hlr.
Qed.

Lemma create_Closed : Closed h'.
Proof.
  destruct (create_lock T h h' a Hcreate) as (_ & -> & _).
  intros x o c Hx Hc. rewrite lock_insert in Hx. case_decide.
  - simplify_eq. cbn in Hc. by apply elem_of_nil in Hc.
  - rewrite lookup_insert. case_decide; [by eexists|]. by eapply Hclosed.
Qed.

End Create.

(** X6: [create] hands out an identity that was never used, with the
    field value-initialised and no child, and attaches the node to nothing:
    every report of [Root::visit] is what it was, and every child reference
    still names an identity that was handed out. *)
Theorem create_attaches_nothing (T : Root.STORAGE) (h h' : Store) (a : addr) :
  closed h = true →
  Root.create T h = (a, h') →
  h !! a = None ∧
  lock h' a = Some {| kind := Root.new_kind T; children_ := [] |} ∧
  (∀ fuel r cout, Root.visit fuel h' r cout = Root.visit fuel h r cout) ∧
  closed h' = true.
Proof.
  intros Hclosed%closed_Closed Hcreate. split; [|split; [|split]].
  - by eapply create_fresh.
  - by eapply create_lock_new.
  - intros fuel r cout. by eapply create_Root_visit.
  - apply closed_Closed. by eapply create_Closed.
Qed.

Lemma create_attaches_nothing_witness :
  ∃ a h',
    Root.create Root.AtomicStorage_size store_B = (a, h') ∧
    store_B !! a = None ∧
    lock h' a = Some {| kind := KAtomicStorage (Field.mk (CSize 0)); children_ := [] |} ∧
    Root.visit 3 h' root0 "" =
      Some (header_text +:+ " - hello" +:+ nl +:+ "   - 2" +:+ nl +:+ tail_text).
Proof.
  destruct (create_attaches_nothing Root.AtomicStorage_size store_B
              (Root.create Root.AtomicStorage_size store_B).2
              (Root.create Root.AtomicStorage_size store_B).1)
    as (Hfresh & Hnew & Hsame & _).
  - by_evaluation.
  - reflexivity.
  - eexists _, _. split; [reflexivity|]. split; [exact Hfresh|]. split; [exact Hnew|].
    rewrite Hsame. by_evaluation.
Defined.

Lemma new_kind_text (T : Root.STORAGE) :
  own_text (Root.new_kind T) 1 =
  match T with
  | Root.Storage_string | Root.AtomicStorage_string => " - " +:+ nl
  | Root.Storage_size | Root.AtomicStorage_size => " - 0" +:+ nl
  end.
Proof. by destruct T. Qed.

Lemma create_append_Ranked (rk : addr → nat) (T : Root.STORAGE) (h h1 h2 : Store)
    (r a : addr) :
  Closed h → Ranked rk h →
  is_Some (lock h r) →
  Root.create T h = (a, h1) →
  Node.append r a h1 = Some h2 →
  Ranked (λ x, if decide (x = a) then 0 else S (rk x)) h2.
Proof.
  intros Hclosed Hrk Hrlive Hcreate Happend.
  destruct (append_lock_all r a h1 h2 Happend) as (o & Hr1 & Hh2).
  pose proof (create_live_ne T h h1 a Hcreate r Hrlive) as Hra.
  pose proof Hr1 as Hr. rewrite (create_lock_ne T h h1 a Hcreate) in Hr by done.
  assert (Hold : ∀ y, y ≠ a → is_Some (lock h2 y) → is_Some (lock h y)).
  { intros y Hy. rewrite Hh2. case_decide.
    - subst y. intros _. by eexists.
    - by rewrite (create_lock_ne T h h1 a Hcreate). }
  intros x ox y Hx Hy Hylive. rewrite Hh2 in Hx. case_decide.
  - subst x. injection Hx as <-. cbn in Hy. rewrite (decide_False (P := r = a)) by done.
    apply elem_of_app in Hy as [Hy|Hy].
    + pose proof (create_child_ne T h h1 a Hclosed Hcreate r y o Hr Hy) as Hya.
      rewrite (decide_False (P := y = a)) by done.
      pose proof (Hrk r o y Hr Hy (Hold y Hya Hylive)). lia.
    + apply list_elem_of_singleton in Hy. subst y.
      rewrite (decide_True (P := a = a)) by done. lia.
  - destruct (decide (x = a)) as [->|Hxa].
    + rewrite (create_lock_new T h h1 a Hcreate) in Hx. injection Hx as <-.
      cbn in Hy. by apply elem_of_nil in Hy.
    + rewrite (create_lock_ne T h h1 a Hcreate) in Hx by done.
      pose proof (create_child_ne T h h1 a Hclosed Hcreate x y ox Hx Hy) as Hya.
      rewrite (decide_False (P := y = a)) by done.
      pose proof (Hrk x ox y Hx Hy (Hold y Hya Hylive)). lia.
Qed.

(** X7: a node made by [create] and appended to the root shows in the next
    report as the last line of the body, without indent, with its
    value-initialised content: nothing after the marker for a string, [0]
    for a [size_t].  The lines that were there stay. *)
Theorem created_node_shows_default (rk : addr → nat) (fuel : nat) (T : Root.STORAGE)
    (h h1 h2 : Store) (r a : addr) (o : Object) (cout : ostream) :
  closed h = true → ranked rk h = true →
  lock h r = Some o → kind o = KRoot → rk r < fuel →
  Root.create T h = (a, h1) →
  Node.append r a h1 = Some h2 →
  ∃ tr,
    Root.visit fuel h r cout =
      Some (cout +:+ header_text +:+ texts h tr +:+ tail_text) ∧
    Root.visit (S fuel) h2 r cout =
      Some (cout +:+ header_text +:+
            (texts h tr +:+
             match T with
             | Root.Storage_string | Root.AtomicStorage_string => " - " +:+ nl
             | Root.Storage_size | Root.AtomicStorage_size => " - 0" +:+ nl
             end) +:+ tail_text).
Proof.
  intros Hclosed%closed_Closed Hrk%ranked_Ranked Hr Hk Hfuel Hcreate Happend.
  assert (Hra : r ≠ a) by (eapply create_live_ne; [done|by eexists]).
  pose proof (create_append_Ranked rk T h h1 h2 r a Hclosed Hrk
                (mk_is_Some _ _ Hr) Hcreate Happend) as Hrk2.
  destruct (append_root_listing _ (S fuel) h1 h2 r a Hrk2 Happend) as
    (tr1 & tc & Htr1 & Htc & Htr2).
  { rewrite (create_lock_new T h h1 a Hcreate). by eexists. }
  { rewrite decide_False by done. lia. }
  destruct (listing_total rk h Hrk fuel 0 r) as [tr Htr]; [by eexists|done|].
  rewrite (create_listing T h h1 a Hclosed Hcreate) in Htr1 by done.
  rewrite (listing_mono h fuel (S fuel) 0 r tr Htr) in Htr1 by lia.
  injection Htr1 as <-.
  cbn [listing] in Htc. rewrite (create_lock_new T h h1 a Hcreate) in Htc.
  cbn in Htc. injection Htc as <-.
  exists tr. split.
  - rewrite (Root_visit_listing fuel h r o) by done. by rewrite Htr.
  - destruct (append_lock_all r a h1 h2 Happend) as (o1 & Hr1 & Hh2).
    rewrite (create_lock_ne T h h1 a Hcreate) in Hr1 by done.
    rewrite Hr in Hr1. injection Hr1 as <-.
    rewrite (Root_visit_listing (S fuel) h2 r
               {| kind := kind o; children_ := children_ o ++ [a] |});
      [|rewrite Hh2; by rewrite decide_True|done].
    rewrite Htr2. cbn [mbind option_bind]. do 4 f_equal.
    rewrite (texts_agree h1 h2) by (intros b d' _; by apply (append_same_kind r a)).
    rewrite texts_app, (create_texts T h h1 a Hcreate fuel 0 r tr Htr). f_equal.
    unfold texts, text. cbn. rewrite (create_lock_new T h h1 a Hcreate). cbn.
    rewrite app_nil_r. apply new_kind_text.
Qed.

Lemma created_node_shows_default_witness :
  ∃ tr,
    Root.visit 3 store_B root0 "" =
      Some ("" +:+ header_text +:+ texts store_B tr +:+ tail_text) ∧
    Root.visit 4
      (<[root0 := Some {| kind := KRoot;
                          children_ :=
                            [metric; (Root.create Root.AtomicStorage_size store_B).1] |}]>
         (Root.create Root.AtomicStorage_size store_B).2) root0 "" =
      Some ("" +:+ header_text +:+ (texts store_B tr +:+ " - 0" +:+ nl) +:+ tail_text).
Proof.
  apply (created_node_shows_default rank_B 3 Root.AtomicStorage_size store_B
           (Root.create Root.AtomicStorage_size store_B).2 _
           root0 (Root.create Root.AtomicStorage_size store_B).1
           {| kind := KRoot; children_ := [metric] |} "").
  - by_evaluation.
  - by_evaluation.
  - by_evaluation.
  - reflexivity.
  - cbn. lia.
  - reflexivity.
  - by_evaluation.
Defined.

(** ** Cycles *)

Lemma listing_descend (h : Store) (x b : addr) :
  reach h x b →
  ∀ n d t, listing n h d x = Some t →
  ∃ n' d', n' ≤ n ∧ is_Some (listing n' h d' b).
Proof.
  induction 1 as [a _|a o child b Ha Hchild Hreach IH]; intros n d t Ht.
  - exists n, d. split; [done|]. by eexists.
  - destruct n as [|n]; [done|]. cbn [listing] in Ht. rewrite Ha in Ht.
    cbn [mbind option_bind] in Ht.
    destruct (mapM _ _) as [trs|] eqn:Htrs; [|done].
    assert (Hcf : child ∈ filter (λ c, is_Some (lock h c)) (children_ o))
      by (apply list_elem_of_filter; split; [by eapply reach_live|done]).
    pose proof (proj1 (mapM_is_Some _ _) (mk_is_Some _ _ Htrs)) as Hall.
    rewrite Forall_forall in Hall. destruct (Hall child Hcf) as [tc Htc].
    destruct (IH n _ tc Htc) as (n' & d' & Hle & Hsome).
    exists n', d'. split; [lia|done].
Qed.

Lemma cycle_no_listing (h : Store) (a : addr) :
  on_cycle h a → ∀ n d, listing n h d a = None.
Proof.
  intros (o & child & Ha & Hchild & Hreach).
  induction n as [n IH] using lt_wf_ind. intros d.
  destruct (listing n h d a) as [t|] eqn:Ht; [|done]. exfalso.
  destruct n as [|n]; [done|]. cbn [listing] in Ht. rewrite Ha in Ht.
  cbn [mbind option_bind] in Ht.
  destruct (mapM _ _) as [trs|] eqn:Htrs; [|done].
  assert (Hcf : child ∈ filter (λ c, is_Some (lock h c)) (children_ o))
    by (apply list_elem_of_filter; split; [by eapply reach_live|done]).
  pose proof (proj1 (mapM_is_Some _ _) (mk_is_Some _ _ Htrs)) as Hall.
  rewrite Forall_forall in Hall. destruct (Hall child Hcf) as [tc Htc].
  destruct (listing_descend h child a Hreach n _ tc Htc) as (n' & d' & Hle & [t' Ht']).
  rewrite IH in Ht' by lia. done.
Qed.

Lemma cycle_no_return (h : Store) (r a : addr) :
  reach h r a → on_cycle h a →
  (∀ fuel cout, Root.visit fuel h r cout = None) ∧
  (∀ fuel v, (Visitor.depth v < Visitor.SIZE_MOD)%N → visit fuel h a v = None).
Proof.
  intros Hreach Hcycle. split.
  - intros fuel cout. destruct (Root.visit fuel h r cout) as [report|] eqn:Hvisit; [|done].
    exfalso. destruct (Root_visit_Some _ _ _ _ _ Hvisit) as (o & Hr & Hk).
    rewrite (Root_visit_listing fuel h r o) in Hvisit by done.
    destruct (listing fuel h 0 r) as [tr|] eqn:Htr; [|done].
    destruct (listing_descend h r a Hreach fuel 0 tr Htr) as (n' & d' & _ & [t' Ht']).
    by rewrite (cycle_no_listing h a Hcycle) in Ht'.
  - intros fuel v Hd. rewrite visit_listing by done.
    by rewrite (cycle_no_listing h a Hcycle).
Qed.

Lemma reach_append (a c : addr) (h h' : Store) (r b : addr) :
  Node.append a c h = Some h' → reach h r b → reach h' r b.
Proof.
  intros Happend. destruct (append_lock_all a c h h' Happend) as (oa & Ha & Hh').
  induction 1 as [x [ox Hx]|x ox child b Hx Hchild _ IH].
  - apply reach_here. rewrite Hh'. case_decide; by eexists.
  - destruct (decide (a = x)) as [->|Hne].
    + rewrite Ha in Hx. injection Hx as <-.
      eapply (reach_child h' x {| kind := kind oa; children_ := children_ oa ++ [c] |});
        [|apply elem_of_app; left; exact Hchild|exact IH].
      rewrite Hh'. by rewrite decide_True.
    + eapply (reach_child h' x ox); [|exact Hchild|exact IH].
      rewrite Hh'. by rewrite decide_False.
Qed.

(** X8: neither [append] nor [visit] guards against a cycle.  When the
    root reaches a node that lies on a cycle of references that resolve,
    [Root::visit] does not return, however deep the calls may nest.  And
    on any store, cyclic or not, appending a node the root reaches to
    itself succeeds, puts the node on such a cycle and so makes
    [Root::visit] never return from then on. *)
Theorem cycle_never_returns (h : Store) :
  (∀ r a,
     reach h r a → on_cycle h a →
     (∀ fuel cout, Root.visit fuel h r cout = None) ∧
     (∀ fuel v, (Visitor.depth v < Visitor.SIZE_MOD)%N → visit fuel h a v = None)) ∧
  (∀ r b,
     reach h r b →
     ∃ h',
       Node.append b b h = Some h' ∧
       on_cycle h' b ∧
       reach h' r b ∧
       (∀ fuel cout, Root.visit fuel h' r cout = None) ∧
       (∀ fuel v, (Visitor.depth v < Visitor.SIZE_MOD)%N → visit fuel h' b v = None)).
Proof.
  split; [intros r a; apply cycle_no_return|].
  intros r b Hreach. destruct (reach_target_live _ _ _ Hreach) as [ob Hb].
  destruct (Node.append b b h) as [h'|] eqn:Happend;
    [|unfold Node.append in Happend; by rewrite Hb in Happend].
  destruct (append_lock_all b b h h' Happend) as (o & Hb0 & Hh').
  assert (Hb' : lock h' b = Some {| kind := kind o; children_ := children_ o ++ [b] |})
    by (rewrite Hh'; by rewrite decide_True).
  assert (Hcycle : on_cycle h' b).
  { exists {| kind := kind o; children_ := children_ o ++ [b] |}, b.
    split; [done|]. split.
    - cbn. apply elem_of_app. right. by left.
    - apply reach_here. by eexists. }
  pose proof (reach_append b b h h' r b Happend Hreach) as Hreach'.
  exists h'. split; [done|]. split; [done|]. split; [done|].
  by apply cycle_no_return.
Qed.

Lemma store_B_reach : reach store_B root0 metric.
Proof.
  eapply (reach_child _ root0 {| kind := KRoot; children_ := [metric] |} metric).
  - by_evaluation.
  - by left.
  - apply reach_here. eexists. by_evaluation.
Qed.

Lemma store_loop_reach : reach store_loop root0 metric.
Proof.
  eapply (reach_child _ root0 {| kind := KRoot; children_ := [metric] |} metric).
  - by_evaluation.
  - by left.
  - apply reach_here. eexists. by_evaluation.
Qed.

Lemma store_loop_cycle : on_cycle store_loop metric.
Proof.
  exists {| kind := KAtomicStorage (Field.mk (CString "hello")); children_ := [metric2] |},
    metric2.
  split; [by_evaluation|]. split; [by left|].
  eapply (reach_child _ metric2
            {| kind := KAtomicStorage (Field.mk (CSize 2)); children_ := [metric] |} metric).
  - by_evaluation.
  - by left.
  - apply reach_here. eexists. by_evaluation.
Qed.

(** The driver's tree has no cycle and its report is written; after
    [metric->append(metric)] no report is; and no report is written on the
    tree whose two storage nodes refer to each other. *)
Lemma cycle_never_returns_witness :
  Root.visit 3 store_B root0 "" =
    Some (header_text +:+ " - hello" +:+ nl +:+ "   - 2" +:+ nl +:+ tail_text) ∧
  (∃ h',
     Node.append metric metric store_B = Some h' ∧
     lock h' metric =
       Some {| kind := KAtomicStorage (Field.mk (CString "hello"));
               children_ := [metric2; metric] |} ∧
     Root.visit 40 h' root0 "" = None) ∧
  Root.visit 40 store_loop root0 "" = None.
Proof.
  split; [by_evaluation|]. split.
  - destruct (proj2 (cycle_never_returns store_B) root0 metric store_B_reach)
      as (h' & Happend & _ & _ & Hnever & _).
    exists h'. split; [exact Happend|]. split; [|apply Hnever].
    assert (Hh' : Node.append metric metric store_B =
                  Some (<[metric := Some {| kind := KAtomicStorage (Field.mk (CString "hello"));
                                           children_ := [metric2; metric] |}]> store_B))
      by reflexivity.
    rewrite Hh' in Happend. injection Happend as <-. by_evaluation.
  - apply (proj1 (cycle_never_returns store_loop) root0 metric
             store_loop_reach store_loop_cycle).
Defined.

(** ** [prefix] *)

(** X9: the marker that [prefix] writes.  At depth 0 and at depth 1 it is
    the bare leaf marker; from depth 1 on, one level more is two spaces
    more in front of what one level less writes.  The depth is left
    alone. *)
Theorem prefix_by_depth (d : N) (o : ostream) :
  (1 ≤ d)%N →
  Visitor.output (Visitor.prefix (Visitor.mk 0 o)) = o +:+ " - " ∧
  Visitor.output (Visitor.prefix (Visitor.mk 1 o)) = o +:+ " - " ∧
  Visitor.output (Visitor.prefix (Visitor.mk (d + 1) o)) =
    Visitor.output (Visitor.prefix (Visitor.mk d (o +:+ "  "))) ∧
  Visitor.depth (Visitor.prefix (Visitor.mk d o)) = d.
Proof.
  intros Hd. split; [done|]. split; [done|]. split; [|done].
  rewrite !prefix_text. cbn [Visitor.output Visitor.depth].
  replace (N.to_nat (d + 1 - 1)) with (S (N.to_nat (d - 1))) by lia.
  cbn [indent]. by rewrite !app_assoc.
Qed.

Lemma prefix_by_depth_witness :
  Visitor.output (Visitor.prefix (Visitor.mk (2 + 1) "")) =
  Visitor.output (Visitor.prefix (Visitor.mk 2 ("" +:+ "  "))).
Proof. apply (prefix_by_depth 2 ""). lia. Defined.

(** ** [Storage] and the composition of commits *)

(** X10: the unsynchronised [Storage] behaves like [AtomicStorage] in a
    sequential run.  After [commit(newValue)] the node holds [newValue] and
    keeps its child list; a traversal of the node that returns has written
    the node's line with [newValue] first, and it does return when the live
    part of the store has no cycle. *)
Theorem Storage_commit_then_visit (fuel : nat) (h h' : Store) (a : addr)
    (newValue : Field.t) (v : Visitor.t) :
  Storage.commit a newValue h = Some h' →
  (Visitor.depth v < Visitor.SIZE_MOD)%N →
  (∃ f children,
     lock h a = Some {| kind := KStorage f; children_ := children |} ∧
     lock h' a = Some {| kind := KStorage newValue; children_ := children |}) ∧
  (∀ v',
     visit fuel h' a v = Some v' →
     ∃ rest,
       Visitor.output v' =
       Visitor.output v +:+
       (indent (N.to_nat (Visitor.depth v - 1)) +:+ " - " +:+
        rendered (Field.content newValue) +:+ nl) +:+ rest) ∧
  (∀ rk, ranked rk h = true → rk a < fuel → is_Some (visit fuel h' a v)).
Proof.
  intros Hcommit Hd.
  destruct (Storage_commit_lock a newValue h h' Hcommit) as (f & ch & Ha & Hh').
  pose proof (commit_same_shape _ (KStorage newValue) a ch h h' Ha Hh') as Hs.
  assert (Ha' : lock h' a = Some {| kind := KStorage newValue; children_ := ch |})
    by (rewrite Hh'; by case_decide).
  split; [by exists f, ch|]. split.
  - intros v'. rewrite visit_listing by done.
    destruct (listing fuel h' _ a) as [tr|] eqn:Htr; [|done]. cbn. intros Hv'.
    destruct (listing_head _ _ _ _ _ Htr) as [rest ->]. simplify_eq.
    exists (texts h' rest). cbn. unfold texts. cbn [fmap list_fmap cat].
    unfold text at 1. cbn [fst snd]. by rewrite Ha'.
  - intros rk Hrk Hfuel. rewrite visit_listing by done.
    destruct (listing_total rk h' (Ranked_same_shape rk h h' Hs (ranked_Ranked rk h Hrk))
                fuel (Visitor.depth v) a) as [tr Htr]; [by eexists|done|].
    rewrite Htr. by eexists.
Qed.

Lemma same_type_trans (c1 c2 c3 : CONTENT) :
  same_type c1 c2 = true → same_type c1 c3 = same_type c2 c3.
Proof. by destruct c1, c2, c3. Qed.

(** X11: a [commit] replaces the value wholesale, so of two commits in a
    row on one node only the second shows: the store is the one the second
    commit alone gives.  This holds for [AtomicStorage] and for
    [Storage]. *)
Theorem commit_overwrites (a : addr) (v1 v2 : Field.t) (h h1 : Store) :
  (AtomicStorage.commit a v1 h = Some h1 →
   AtomicStorage.commit a v2 h1 = AtomicStorage.commit a v2 h) ∧
  (Storage.commit a v1 h = Some h1 →
   Storage.commit a v2 h1 = Storage.commit a v2 h).
Proof.
  split.
  - unfold AtomicStorage.commit, lock_guard.
    destruct (lock h a) as [[[| |f|f] ch]|] eqn:Ha; try done.
    destruct (same_type (Field.content f) (Field.content v1)) eqn:Ht; [|done].
    intros Hh1. injection Hh1 as <-. rewrite lock_insert, decide_True by done.
    rewrite !Field_assign. rewrite <- (same_type_trans _ _ _ Ht).
    destruct (same_type _ _); [|done]. by rewrite insert_insert_eq.
  - unfold Storage.commit.
    destruct (lock h a) as [[[| |f|f] ch]|] eqn:Ha; try done.
    destruct (same_type (Field.content f) (Field.content v1)) eqn:Ht; [|done].
    intros Hh1. injection Hh1 as <-. rewrite lock_insert, decide_True by done.
    rewrite !Field_assign. rewrite <- (same_type_trans _ _ _ Ht).
    destruct (same_type _ _); [|done]. by rewrite insert_insert_eq.
Qed.

Lemma commit_overwrites_witness :
  AtomicStorage.commit metric (Field.mk (CString "bye"))
    (<[metric := Some {| kind := KAtomicStorage (Field.mk (CString "ciao"));
                        children_ := [metric2] |}]> store_B) =
  AtomicStorage.commit metric (Field.mk (CString "bye")) store_B.
Proof.
  apply (proj1 (commit_overwrites metric (Field.mk (CString "ciao"))
                  (Field.mk (CString "bye")) store_B _)).
  reflexivity.
Defined.

Lemma AtomicStorage_commit_unfold (a : addr) (v : Field.t) (h : Store) :
  AtomicStorage.commit a v h =
  o ← lock h a;
  match kind o with
  | KAtomicStorage f =>
      if same_type (Field.content f) (Field.content v)
      then Some (<[a := Some {| kind := KAtomicStorage v; children_ := children_ o |}]> h)
      else None
  | _ => None
  end.
Proof.
  unfold AtomicStorage.commit, lock_guard.
  destruct (lock h a) as [[[| |f|f] ch]|]; try done. cbn. by rewrite Field_assign.
Qed.

(** X12: commits on two different nodes do not disturb each other: in
    either order they succeed or fail together and give the same store. *)
Theorem commits_commute (a b : addr) (v w : Field.t) (h : Store) :
  a ≠ b →
  (h1 ← AtomicStorage.commit a v h; AtomicStorage.commit b w h1) =
  (h2 ← AtomicStorage.commit b w h; AtomicStorage.commit a v h2).
Proof.
  intros Hab.
  assert (Hcross : ∀ x y o (h0 : Store), x ≠ y → lock (<[x := Some o]> h0) y = lock h0 y)
    by (intros; by rewrite lock_insert, decide_False).
  rewrite (AtomicStorage_commit_unfold a v h), (AtomicStorage_commit_unfold b w h).
  destruct (lock h a) as [[[| |fa|fa] cha]|] eqn:Ha,
           (lock h b) as [[[| |fb|fb] chb]|] eqn:Hb; cbn;
    repeat (match goal with
            | |- context [same_type ?x ?y] => destruct (same_type x y) eqn:?; cbn
            end);
    rewrite ?AtomicStorage_commit_unfold, ?Hcross by done;
    rewrite ?Ha, ?Hb; cbn;
    repeat (match goal with
            | H : same_type _ _ = _ |- _ => rewrite H
            end);
    try done.
  by rewrite insert_insert_ne.
Qed.

Lemma commits_commute_witness :
  (h1 ← AtomicStorage.commit metric (Field.mk (CString "bye")) store_B;
   AtomicStorage.commit metric2 (Field.mk (CSize 3)) h1) =
  (h2 ← AtomicStorage.commit metric2 (Field.mk (CSize 3)) store_B;
   AtomicStorage.commit metric (Field.mk (CString "bye")) h2).
Proof. apply (commits_commute metric metric2). discriminate. Defined.

Lemma Storage_commit_then_visit_witness :
  ∃ h' v' rest,
    Storage.commit metric (Field.mk (CSize 5))
      (<[metric := Some {| kind := KStorage (Field.mk (CSize 4)); children_ := [] |}]>
         store_A) = Some h' ∧
    visit 2 h' metric (Visitor.mk 1 "") = Some v' ∧
    Visitor.output v' = "" +:+ (" - " +:+ "5" +:+ nl) +:+ rest.
Proof.
  destruct (Storage_commit_then_visit 2
              (<[metric := Some {| kind := KStorage (Field.mk (CSize 4)); children_ := [] |}]>
                 store_A)
              (<[metric := Some {| kind := KStorage (Field.mk (CSize 5)); children_ := [] |}]>
                 (<[metric := Some {| kind := KStorage (Field.mk (CSize 4));
                                     children_ := [] |}]> store_A))
              metric (Field.mk (CSize 5)) (Visitor.mk 1 ""))
    as (_ & Hline & Hreturns).
  - reflexivity.
  - by_evaluation.
  - destruct (Hreturns rank_B) as [v' Hv'].
    + by_evaluation.
    + cbn. lia.
    + destruct (Hline v' Hv') as [rest Hrest].
      eexists _, v', rest. split; [reflexivity|]. split; [exact Hv'|exact Hrest].
Defined.
